(** * Trebek trivia bot: the round engine and its continuous-play loop

    A shallow embedding of [internal/game] (the [Game] type and its methods)
    and of the scheduler part of [cmd/trebek/main.go] ([askQuestion],
    [gameLoop]), with the properties of the design note proved about it.

    Conventions of the embedding:
    - a Go [string] is the sequence of its runes (code points, [Z]); the
      engine only ever looks at strings rune by rune ([strings.ToLower],
      [strings.TrimSpace], the regexp, [[]rune(...)]);
    - a Go [int] is a [Z];
    - every method that takes [g.mu] is one atomic function on the state;
    - a run-time panic is the [Panic] outcome of the [Result] monad;
    - [math/rand] is an infinite sequence of raw draws carried in the state;
    - goroutines started with [go] are counted in the state and run when the
      schedule says so. *)

From Stdlib Require Import ZArith Ascii Sorted.
From stdpp Require Import base strings pretty list gmap.

Local Open Scope Z_scope.

(** ** Go strings as rune sequences *)

Abbreviation rune := Z (only parsing).
Abbreviation gostring := (list Z) (only parsing).

(** An ASCII literal as a Go string. *)
Definition str (s : string) : gostring :=
  (fun c => Z.of_N (Ascii.N_of_ascii c)) <$> String.list_ascii_of_string s.

Definition between (lo hi r : rune) : bool := (lo <=? r) && (r <=? hi).

Module unicode.

(** [unicode.IsSpace]: the Latin-1 spaces and the code points with the
    White_Space property. *)
Definition IsSpace (r : rune) : bool :=
  between 9 13 r || (r =? 32) || (r =? 133) || (r =? 160)
  || (r =? 5760) || between 8192 8202 r || (r =? 8232) || (r =? 8233)
  || (r =? 8239) || (r =? 8287) || (r =? 12288).

(** [unicode.ToLower].  The ASCII branch is the code of the function.  Of
    the case table used above ASCII, two entries map into ASCII: U+0130
    (delta -199, giving [i]) and U+212A, the Kelvin sign (delta -8383,
    giving [k]); the Latin-1 capitals (delta +32) are listed as well.  Every
    remaining entry sends a rune above ASCII to a rune above ASCII and is
    not tabulated: the only user of [ToLower], [normalizeAnswer], deletes
    every rune above ASCII right after lowering, so its result is the same
    with the full table. *)
Definition ToLower (r : rune) : rune :=
  if r <=? 127 then (if between 65 90 r then r + 32 else r)
  else if r =? 304 then r - 199
  else if r =? 8490 then r - 8383
  else if (between 192 214 r || between 216 222 r) then r + 32
  else r.

(** [unicode.ToUpper], in the same way: the ASCII branch is the code of the
    function; of the case table, two entries map into ASCII, U+0131 (the
    dotless i, delta -232, giving [I]) and U+017F (the long s, delta -300,
    giving [S]); the Latin-1 small letters are listed as well (delta -32;
    U+00B5 and U+00FF have their capitals above Latin-1).  The remaining
    entries are not tabulated. *)
Definition ToUpper (r : rune) : rune :=
  if r <=? 127 then (if between 97 122 r then r - 32 else r)
  else if r =? 305 then r - 232
  else if r =? 383 then r - 300
  else if r =? 181 then r + 743
  else if r =? 255 then r + 121
  else if (between 224 246 r || between 248 254 r) then r - 32
  else r.

(** [unicode.IsLetter] and [unicode.IsDigit] up to U+00FF, where both
    functions answer from the Latin-1 table [properties] and the test
    ['0' <= r && r <= '9'].  Above U+00FF they search range tables that are
    not tabulated here; the two definitions are used at Latin-1 text only. *)
Definition IsLetter (r : rune) : bool :=
  (r <=? 255)
  && (between 65 90 r || between 97 122 r || (r =? 170) || (r =? 181)
      || (r =? 186) || between 192 214 r || between 216 246 r
      || between 248 255 r).

Definition IsDigit (r : rune) : bool := (r <=? 255) && between 48 57 r.

End unicode.

Module strings.

Fixpoint dropWhile (p : rune -> bool) (s : gostring) : gostring :=
  match s with
  | [] => []
  | r :: t => if p r then dropWhile p t else s
  end.

(** [strings.TrimLeftFunc] and [strings.TrimRightFunc]. *)
Definition TrimLeftFunc (s : gostring) (p : rune -> bool) : gostring :=
  dropWhile p s.
Definition TrimRightFunc (s : gostring) (p : rune -> bool) : gostring :=
  reverse (dropWhile p (reverse s)).

(** [strings.TrimSpace]: leading and trailing white space removed. *)
Definition TrimSpace (s : gostring) : gostring :=
  TrimRightFunc (TrimLeftFunc s unicode.IsSpace) unicode.IsSpace.

(** [strings.ToLower]: [unicode.ToLower] on every rune (the all-ASCII fast
    path computes the same string). *)
Definition ToLower (s : gostring) : gostring := unicode.ToLower <$> s.

(** [strings.ToUpper], likewise. *)
Definition ToUpper (s : gostring) : gostring := unicode.ToUpper <$> s.

End strings.

(** ** The regular expression [[^a-zA-Z0-9]+] *)

Definition isAlphaNum (r : rune) : bool :=
  between 97 122 r || between 65 90 r || between 48 57 r.

(** [regNonAlphaNum.ReplaceAllString(s, repl)]: every maximal run of runes
    outside [a-zA-Z0-9] is one leftmost-longest match and is replaced by
    [repl].  [inRun] tells whether the previous rune belonged to a match. *)
Fixpoint replaceRuns (inRun : bool) (repl s : gostring) : gostring :=
  match s with
  | [] => []
  | r :: t =>
      if isAlphaNum r then r :: replaceRuns false repl t
      else (if inRun then [] else repl) ++ replaceRuns true repl t
  end.

Definition regNonAlphaNum_ReplaceAllString (s repl : gostring) : gostring :=
  replaceRuns false repl s.

(** [normalizeAnswer], statement by statement. *)
Definition normalizeAnswer (s : gostring) : gostring :=
  let s := strings.ToLower s in
  let s := strings.TrimSpace s in
  let s := regNonAlphaNum_ReplaceAllString s [] in
  s.

(** The ASCII letters and digits, by their code points: [0]-[9], [A]-[Z],
    [a]-[z]. *)
Definition asciiLetterOrDigit (r : rune) : Prop :=
  48 <= r <= 57 \/ 65 <= r <= 90 \/ 97 <= r <= 122.

#[global] Instance asciiLetterOrDigit_dec r : Decision (asciiLetterOrDigit r).
Proof. unfold asciiLetterOrDigit. apply _. Defined.

(** The normalization in words: lowercase, trim the surrounding white
    space, strip every character that is not an ASCII letter or digit. *)
Definition normalize_spec (s : gostring) : gostring :=
  filter asciiLetterOrDigit (strings.TrimSpace (strings.ToLower s)).

(** The same with letters and digits as Unicode has them: what stripping
    "every character that is not a letter or digit" keeps of a Latin-1
    text. *)
Definition normalize_words (s : gostring) : gostring :=
  filter (fun r => unicode.IsLetter r || unicode.IsDigit r = true)
         (strings.TrimSpace (strings.ToLower s)).

(** ** Questions and their source *)

Module question.

(** [question.Question]; the field [Question] is [QuestionText] here, the
    record itself carrying the name. *)
Record Question := {
  Category : gostring;
  QuestionText : gostring;
  Answer : gostring;
  Money : gostring;
  Date : gostring;
  Episode : Z
}.

(** One call of [QuestionSource.Next]: a question or an error other than
    [io.EOF]. *)
Inductive NextResult :=
| Yield (q : Question)
| Fail.

(** A [QuestionSource] is the sequence of results its future [Next] calls
    will give; past its end every call returns [io.EOF]. *)
Abbreviation QuestionSource := (list NextResult) (only parsing).

End question.
Export question.

#[global] Instance Question_eq_dec : EqDecision Question.
Proof. solve_decision. Defined.

(** ** Outcomes: a value or a run-time panic *)

Inductive Result (A : Type) : Type :=
| Ok (a : A)
| Panic (msg : string).
Arguments Ok {A} a.
Arguments Panic {A} msg.

Definition bind {A B : Type} (m : Result A) (k : A -> Result B) : Result B :=
  match m with
  | Ok a => k a
  | Panic msg => Panic msg
  end.

Notation "'let*' p := m 'in' k" := (bind m (fun p => k))
  (at level 10, p pattern, m at level 200, k at level 200).

(** ** [math/rand] *)

(** The generator: the raw draws still to come. *)
Abbreviation Rand := (nat -> Z) (only parsing).

(** [rand.Intn(n)]: panics for [n <= 0], else the next draw reduced to
    [[0, n)]. *)
Definition Intn (n : Z) (r : Rand) : Result (Z * Rand) :=
  if n <=? 0 then Panic "invalid argument to Intn"
  else Ok (r 0%nat `mod` n, fun k => r (S k)).

(** ** [time.Timer] objects *)

Inductive TimerState := Pending | Stopped | Fired.

Record Timer := { delay : Z; tstate : TimerState }.

Definition Second : Z := 1000000000.

(** [t.Stop()]: cancels a pending timer, does nothing to one that fired or
    was stopped. *)
Definition Stop (t : Timer) : Timer :=
  match tstate t with
  | Pending => {| delay := delay t; tstate := Stopped |}
  | _ => t
  end.

(** ** The game state *)

Definition HintCost : Z := 50.
Definition MaxHints : Z := 3.

(** The fields of [Game] that the round engine and the scheduler use (the
    scoreboard and the mutexes are left out; the rendezvous channel
    [AnswerGiven] is the [AnswerGivenRecv] event of the loop below).
    - [timers] is the heap of timers made by [time.AfterFunc], and
      [QuestionTimer] points into it;
    - [pendingFills] counts the goroutines started by
      [go g.fillQuestionBuffer()] that have not run yet. *)
Record Game := {
  questionSource : QuestionSource;
  questionBuffer : list Question;
  CurrentQuestion : option Question;
  rand : Rand;
  hintCount : Z;
  hintMask : list Z;
  IsPlaying : bool;
  GameChannel : gostring;
  QuestionTimer : option nat;
  nextVotes : gmap (list Z) bool;
  NextVoteThreshold : Z;
  timers : list Timer;
  pendingFills : nat
}.

Definition with_buffer (qs : QuestionSource) (buf : list Question) (g : Game) : Game :=
  {| questionSource := qs; questionBuffer := buf;
     CurrentQuestion := CurrentQuestion g; rand := rand g;
     hintCount := hintCount g; hintMask := hintMask g;
     IsPlaying := IsPlaying g; GameChannel := GameChannel g;
     QuestionTimer := QuestionTimer g; nextVotes := nextVotes g;
     NextVoteThreshold := NextVoteThreshold g; timers := timers g;
     pendingFills := pendingFills g |}.

Definition with_rand (r : Rand) (g : Game) : Game :=
  {| questionSource := questionSource g; questionBuffer := questionBuffer g;
     CurrentQuestion := CurrentQuestion g; rand := r;
     hintCount := hintCount g; hintMask := hintMask g;
     IsPlaying := IsPlaying g; GameChannel := GameChannel g;
     QuestionTimer := QuestionTimer g; nextVotes := nextVotes g;
     NextVoteThreshold := NextVoteThreshold g; timers := timers g;
     pendingFills := pendingFills g |}.

Definition with_CurrentQuestion (q : option Question) (g : Game) : Game :=
  {| questionSource := questionSource g; questionBuffer := questionBuffer g;
     CurrentQuestion := q; rand := rand g;
     hintCount := hintCount g; hintMask := hintMask g;
     IsPlaying := IsPlaying g; GameChannel := GameChannel g;
     QuestionTimer := QuestionTimer g; nextVotes := nextVotes g;
     NextVoteThreshold := NextVoteThreshold g; timers := timers g;
     pendingFills := pendingFills g |}.

Definition with_hintCount (n : Z) (g : Game) : Game :=
  {| questionSource := questionSource g; questionBuffer := questionBuffer g;
     CurrentQuestion := CurrentQuestion g; rand := rand g;
     hintCount := n; hintMask := hintMask g;
     IsPlaying := IsPlaying g; GameChannel := GameChannel g;
     QuestionTimer := QuestionTimer g; nextVotes := nextVotes g;
     NextVoteThreshold := NextVoteThreshold g; timers := timers g;
     pendingFills := pendingFills g |}.

Definition with_hintMask (m : list Z) (g : Game) : Game :=
  {| questionSource := questionSource g; questionBuffer := questionBuffer g;
     CurrentQuestion := CurrentQuestion g; rand := rand g;
     hintCount := hintCount g; hintMask := m;
     IsPlaying := IsPlaying g; GameChannel := GameChannel g;
     QuestionTimer := QuestionTimer g; nextVotes := nextVotes g;
     NextVoteThreshold := NextVoteThreshold g; timers := timers g;
     pendingFills := pendingFills g |}.

Definition with_IsPlaying (b : bool) (g : Game) : Game :=
  {| questionSource := questionSource g; questionBuffer := questionBuffer g;
     CurrentQuestion := CurrentQuestion g; rand := rand g;
     hintCount := hintCount g; hintMask := hintMask g;
     IsPlaying := b; GameChannel := GameChannel g;
     QuestionTimer := QuestionTimer g; nextVotes := nextVotes g;
     NextVoteThreshold := NextVoteThreshold g; timers := timers g;
     pendingFills := pendingFills g |}.

Definition with_QuestionTimer (t : option nat) (g : Game) : Game :=
  {| questionSource := questionSource g; questionBuffer := questionBuffer g;
     CurrentQuestion := CurrentQuestion g; rand := rand g;
     hintCount := hintCount g; hintMask := hintMask g;
     IsPlaying := IsPlaying g; GameChannel := GameChannel g;
     QuestionTimer := t; nextVotes := nextVotes g;
     NextVoteThreshold := NextVoteThreshold g; timers := timers g;
     pendingFills := pendingFills g |}.

Definition with_nextVotes (v : gmap (list Z) bool) (g : Game) : Game :=
  {| questionSource := questionSource g; questionBuffer := questionBuffer g;
     CurrentQuestion := CurrentQuestion g; rand := rand g;
     hintCount := hintCount g; hintMask := hintMask g;
     IsPlaying := IsPlaying g; GameChannel := GameChannel g;
     QuestionTimer := QuestionTimer g; nextVotes := v;
     NextVoteThreshold := NextVoteThreshold g; timers := timers g;
     pendingFills := pendingFills g |}.

Definition with_timers (ts : list Timer) (g : Game) : Game :=
  {| questionSource := questionSource g; questionBuffer := questionBuffer g;
     CurrentQuestion := CurrentQuestion g; rand := rand g;
     hintCount := hintCount g; hintMask := hintMask g;
     IsPlaying := IsPlaying g; GameChannel := GameChannel g;
     QuestionTimer := QuestionTimer g; nextVotes := nextVotes g;
     NextVoteThreshold := NextVoteThreshold g; timers := ts;
     pendingFills := pendingFills g |}.

Definition with_NextVoteThreshold (n : Z) (g : Game) : Game :=
  {| questionSource := questionSource g; questionBuffer := questionBuffer g;
     CurrentQuestion := CurrentQuestion g; rand := rand g;
     hintCount := hintCount g; hintMask := hintMask g;
     IsPlaying := IsPlaying g; GameChannel := GameChannel g;
     QuestionTimer := QuestionTimer g; nextVotes := nextVotes g;
     NextVoteThreshold := n; timers := timers g;
     pendingFills := pendingFills g |}.

Definition with_pendingFills (n : nat) (g : Game) : Game :=
  {| questionSource := questionSource g; questionBuffer := questionBuffer g;
     CurrentQuestion := CurrentQuestion g; rand := rand g;
     hintCount := hintCount g; hintMask := hintMask g;
     IsPlaying := IsPlaying g; GameChannel := GameChannel g;
     QuestionTimer := QuestionTimer g; nextVotes := nextVotes g;
     NextVoteThreshold := NextVoteThreshold g; timers := timers g;
     pendingFills := n |}.

(** ** The question buffer *)

(** The loop of [fillQuestionBufferUnlocked]: while fewer than three
    questions are buffered, call [Next]; [io.EOF] (the source is at its end)
    and any other error both leave the loop, a question is appended. *)
Fixpoint fillLoop (qs : QuestionSource) (buf : list Question)
  : QuestionSource * list Question :=
  if (length buf <? 3)%nat then
    match qs with
    | [] => ([], buf)
    | Fail :: rest => (rest, buf)
    | Yield q :: rest => fillLoop rest (buf ++ [q])
    end
  else (qs, buf).

Definition fillQuestionBufferUnlocked (g : Game) : Game :=
  let '(qs, buf) := fillLoop (questionSource g) (questionBuffer g) in
  with_buffer qs buf g.

Definition fillQuestionBuffer (g : Game) : Game :=
  fillQuestionBufferUnlocked g.

(** One goroutine started by [go g.fillQuestionBuffer()] gets to run. *)
Definition runFill (g : Game) : Game :=
  match pendingFills g with
  | O => g
  | S n => with_pendingFills n (fillQuestionBuffer g)
  end.

Definition NewGame (qs : QuestionSource) (channel : gostring) (seed : Rand) : Game :=
  fillQuestionBuffer
    {| questionSource := qs; questionBuffer := [];
       CurrentQuestion := None; rand := seed;
       hintCount := 0; hintMask := [];
       IsPlaying := false; GameChannel := channel;
       QuestionTimer := None; nextVotes := ∅;
       NextVoteThreshold := 3; timers := [];
       pendingFills := 0 |}.

(** ** The round engine *)

Definition StartRound (g : Game) : Result (option Question * Game) :=
  let g1 := if (length (questionBuffer g) =? 0)%nat
            then fillQuestionBufferUnlocked g else g in
  if (length (questionBuffer g1) =? 0)%nat then Ok (None, g1)
  else
    let* (idx, rnd) := Intn (Z.of_nat (length (questionBuffer g1))) (rand g1) in
    let i := Z.to_nat idx in
    match questionBuffer g1 !! i with
    | None => Panic "index out of range"
    | Some q =>
        let buf := take i (questionBuffer g1) ++ drop (S i) (questionBuffer g1) in
        let g2 := with_rand rnd (with_buffer (questionSource g1) buf g1) in
        let g3 := with_CurrentQuestion (Some q) g2 in
        Ok (Some q, with_pendingFills (S (pendingFills g3)) g3)
    end.

(** [CheckAnswer] assigns no field: it is a function of the state. *)
Definition CheckAnswer (g : Game) (answer : gostring) : bool :=
  match CurrentQuestion g with
  | None => false
  | Some q =>
      let normalizedAttempt := normalizeAnswer answer in
      let normalizedCorrect := normalizeAnswer (Answer q) in
      bool_decide (normalizedAttempt = normalizedCorrect)
  end.

Definition GetCurrentQuestion (g : Game) : option Question := CurrentQuestion g.

Definition ClearCurrentQuestion (g : Game) : Game :=
  let g := with_CurrentQuestion None g in
  let g := with_hintCount 0 g in
  let g := with_hintMask [] g in
  let g := with_nextVotes ∅ g in
  match QuestionTimer g with
  | Some t => with_timers (alter Stop t (timers g)) g
  | None => g
  end.

Definition SetPlaying (playing : bool) (g : Game) : Game := with_IsPlaying playing g.

Definition GetPlaying (g : Game) : bool := IsPlaying g.

Definition space : rune := 32.
Definition underscore : rune := 95.

(** The mask built on the first hint: blanks stay, the rest is hidden. *)
Definition initMask (answer : list Z) : list Z :=
  (fun r => if r =? space then space else underscore) <$> answer.

(** The loop [for i := 0; i < 5 && !revealed; i++]: up to [tries] random
    positions; indexing the mask past its end panics. *)
Fixpoint revealRandom (tries : nat) (answer mask : list Z) (rnd : Rand)
  : Result (list Z * Rand * bool) :=
  match tries with
  | O => Ok (mask, rnd, false)
  | S k =>
      let* (idx, rnd') := Intn (Z.of_nat (length answer)) rnd in
      let i := Z.to_nat idx in
      match mask !! i with
      | None => Panic "index out of range"
      | Some c =>
          if c =? underscore then
            match answer !! i with
            | None => Panic "index out of range"
            | Some a => Ok (<[i := a]> mask, rnd', true)
            end
          else revealRandom k answer mask rnd'
      end
  end.

(** The fallback [for i, r := range g.hintMask]: the first hidden slot from
    position [i] on, [rest] being the slots not yet visited. *)
Fixpoint revealFirst (i : nat) (rest answer mask : list Z)
  : Result (list Z * bool) :=
  match rest with
  | [] => Ok (mask, false)
  | r :: rest' =>
      if r =? underscore then
        match answer !! i with
        | None => Panic "index out of range"
        | Some a => Ok (<[i := a]> mask, true)
        end
      else revealFirst (S i) rest' answer mask
  end.

(** [if !revealed { ... }]. *)
Definition revealFallback (revealed : bool) (answer mask : list Z)
  : Result (list Z * bool) :=
  if revealed then Ok (mask, true) else revealFirst 0 mask answer mask.

Definition msgNoQuestion : gostring := str "No question is currently active.".
Definition msgMaxHints : gostring :=
  str "Maximum hints (" ++ str (pretty MaxHints) ++ str ") reached for this question.".
Definition msgNoMoreChars : gostring := str "No more characters to reveal for a hint.".

Definition GetHint (g : Game) : Result (list Z * bool * Game) :=
  match CurrentQuestion g with
  | None => Ok (msgNoQuestion, false, g)
  | Some q =>
      if MaxHints <=? hintCount g then Ok (msgMaxHints, false, g)
      else
        let answer := strings.TrimSpace (Answer q) in
        let g := if (length (hintMask g) =? 0)%nat
                 then with_hintMask (initMask answer) g else g in
        let* (mask, rnd, revealed) := revealRandom 5 answer (hintMask g) (rand g) in
        let g := with_rand rnd (with_hintMask mask g) in
        let* (mask, revealed) := revealFallback revealed answer mask in
        let g := with_hintMask mask g in
        if revealed then
          let g := with_hintCount (hintCount g + 1) g in
          Ok (hintMask g, true, g)
        else Ok (msgNoMoreChars, false, g)
  end.

Definition AddNextVote (g : Game) (user : gostring) : Z * Z * bool * Game :=
  match CurrentQuestion g with
  | None => (0, 0, false, g)
  | Some _ =>
      match nextVotes g !! user with
      | Some _ => (Z.of_nat (size (nextVotes g)), NextVoteThreshold g, false, g)
      | None =>
          let g := with_nextVotes (<[user := true]> (nextVotes g)) g in
          let currentVotes := Z.of_nat (size (nextVotes g)) in
          if NextVoteThreshold g <=? currentVotes
          then (currentVotes, NextVoteThreshold g, true, g)
          else (currentVotes, NextVoteThreshold g, false, g)
      end
  end.

(** ** The continuous-play loop of [cmd/trebek/main.go] *)

(** The IRC client as the scheduler sees it: the messages handed to
    [Privmsg], oldest first. *)
Record Client := { outbox : list (list Z * list Z) }.

Definition Privmsg (c : Client) (target text : gostring) : Client :=
  {| outbox := outbox c ++ [(target, text)] |}.

(** [time.AfterFunc(d, f)]: a new pending timer on the heap; all timers made
    here carry the same callback, the per-question timeout. *)
Definition AfterFunc (d : Z) (g : Game) : nat * Game :=
  (length (timers g),
   with_timers (timers g ++ [{| delay := d; tstate := Pending |}]) g).

Definition msgNoMoreQuestions : gostring :=
  str "No more questions left! Reset the game or load more questions.".

Definition msgQuestion (q : Question) : gostring :=
  str "Category: " ++ Category q ++ str " - Question: " ++ QuestionText q.

Definition askQuestion (c : Client) (g : Game) : Result (Client * Game) :=
  let* (q, g) := StartRound g in
  match q with
  | None =>
      let c := Privmsg c (GameChannel g) msgNoMoreQuestions in
      Ok (c, SetPlaying false g)
  | Some q =>
      let c := Privmsg c (GameChannel g) (msgQuestion q) in
      let '(t, g) := AfterFunc (30 * Second) g in
      Ok (c, with_QuestionTimer (Some t) g)
  end.

(** What the [select] of [gameLoop] can receive. *)
Inductive LoopEvent :=
| TimerC
| AnswerGivenRecv (answered : bool)
| StopRecv.

(** The loop's view of the world; [nextQuestionTimer] is [Some d] while the
    timer is armed with delay [d], [None] while it is disarmed. *)
Record Loop := {
  client : Client;
  game : Game;
  nextQuestionTimer : option Z
}.

Inductive LoopStep :=
| Continue (l : Loop)
| Return (l : Loop).

Definition nextQuestionDelay : Z := 5 * Second.

(** Entry of [gameLoop]: the timer is created and stopped at once. *)
Definition gameLoop_enter (c : Client) (g : Game) : Loop :=
  {| client := c; game := g; nextQuestionTimer := None |}.

Definition Reset (d : Z) (l : Loop) : Loop :=
  {| client := client l; game := game l; nextQuestionTimer := Some d |}.

(** One iteration of the [for { select { ... } }].  [TimerC] can only be
    received from an armed timer; offered on a disarmed one, the loop stays
    blocked where it is.  Receiving from the timer disarms it. *)
Definition gameLoop_select (ev : LoopEvent) (l : Loop) : Result LoopStep :=
  match ev with
  | TimerC =>
      match nextQuestionTimer l with
      | None => Ok (Continue l)
      | Some _ =>
          let l := {| client := client l; game := game l;
                      nextQuestionTimer := None |} in
          if GetPlaying (game l) then
            let* (c, g) := askQuestion (client l) (game l) in
            let l := {| client := c; game := g;
                        nextQuestionTimer := nextQuestionTimer l |} in
            Ok (Continue (Reset (45 * Second) l))
          else Ok (Continue l)
      end
  | AnswerGivenRecv answered =>
      if GetPlaying (game l) then
        if answered then Ok (Continue (Reset nextQuestionDelay l))
        else Ok (Continue (Reset nextQuestionDelay l))
      else Ok (Continue l)
  | StopRecv =>
      Ok (Return {| client := client l; game := game l;
                    nextQuestionTimer := None |})
  end.

(** The loop over the events it receives, until it returns or panics. *)
Fixpoint gameLoop (evs : list LoopEvent) (l : Loop) : Result LoopStep :=
  match evs with
  | [] => Ok (Continue l)
  | ev :: evs' =>
      let* s := gameLoop_select ev l in
      match s with
      | Continue l' => gameLoop evs' l'
      | Return l' => Ok (Return l')
      end
  end.

(** ** The two halves of [StartRound] *)

(** The buffer [StartRound] draws from: refilled first if it was empty. *)
Definition refilled (g : Game) : Game :=
  if (length (questionBuffer g) =? 0)%nat
  then fillQuestionBufferUnlocked g else g.

(** The state after question number [i] of the buffer has been taken. *)
Definition taken (i : nat) (q : Question) (g1 : Game) : Game :=
  let buf := take i (questionBuffer g1) ++ drop (S i) (questionBuffer g1) in
  let g2 := with_rand (fun k => rand g1 (S k))
              (with_buffer (questionSource g1) buf g1) in
  let g3 := with_CurrentQuestion (Some q) g2 in
  with_pendingFills (S (pendingFills g3)) g3.

(** ** Runs of calls *)

(** [n] successive calls of [GetHint]: what each call returned, with the
    state it left; the run ends early if a call panics. *)
Fixpoint hintCalls (n : nat) (g : Game) : list (list Z * bool * Game) :=
  match n with
  | O => []
  | S k =>
      match GetHint g with
      | Ok (h, granted, g') => (h, granted, g') :: hintCalls k g'
      | Panic _ => []
      end
  end.

(** How many calls of a run granted a hint. *)
Definition grantedCount (rs : list (list Z * bool * Game)) : Z :=
  Z.of_nat (length (filter (fun r => r.1.2 = true) rs)).

(** The mask a call of [GetHint] works on: built from the trimmed answer if
    the game holds none yet. *)
Definition workingMask (g : Game) (q : Question) : list Z :=
  if (length (hintMask g) =? 0)%nat
  then initMask (strings.TrimSpace (Answer q)) else hintMask g.

(** What the callers of the buffer do, in the order the scheduler of
    goroutines lets them: a call of [StartRound], or one of the started
    [fillQuestionBuffer] goroutines running to completion (both hold
    [bufferMu] for the whole access). *)
Inductive Action :=
| CallStartRound
| FillRuns.

#[global] Instance Action_eq_dec : EqDecision Action.
Proof. solve_decision. Defined.

(** The questions returned by the [StartRound] calls of a schedule. *)
Fixpoint rounds (sched : list Action) (g : Game) : Result (list (option Question)) :=
  match sched with
  | [] => Ok []
  | FillRuns :: sched' => rounds sched' (runFill g)
  | CallStartRound :: sched' =>
      let* (q, g') := StartRound g in
      let* qs := rounds sched' g' in
      Ok (q :: qs)
  end.

Definition calls (sched : list Action) : nat :=
  length (filter (fun a => a = CallStartRound) sched).

(** The questions a source still has to give. *)
Definition sourceQuestions (qs : QuestionSource) : list Question :=
  omap (fun r => match r with Yield q => Some q | Fail => None end) qs.

(** Every question the game can still serve: buffered or not yet read. *)
Definition pool (g : Game) : list Question :=
  questionBuffer g ++ sourceQuestions (questionSource g).

Definition allYield (qs : QuestionSource) : Prop :=
  Forall (fun r => r <> Fail) qs.

(** The states the program can be in: made by [NewGame] and changed by the
    methods of [Game], by the refill goroutines and by [askQuestion]. *)
Inductive reachable : Game -> Prop :=
| reach_NewGame qs channel seed : reachable (NewGame qs channel seed)
| reach_StartRound g r g' :
    reachable g -> StartRound g = Ok (r, g') -> reachable g'
| reach_GetHint g h granted g' :
    reachable g -> GetHint g = Ok (h, granted, g') -> reachable g'
| reach_AddNextVote g user : reachable g -> reachable (AddNextVote g user).2
| reach_ClearCurrentQuestion g : reachable g -> reachable (ClearCurrentQuestion g)
| reach_SetPlaying b g : reachable g -> reachable (SetPlaying b g)
| reach_runFill g : reachable g -> reachable (runFill g)
| reach_askQuestion c g c' g' :
    reachable g -> askQuestion c g = Ok (c', g') -> reachable g'.

(** A fresh hint state: no hint given, no mask, no vote. *)
Definition hintStateFresh (g : Game) : Prop :=
  hintCount g = 0 /\ hintMask g = [] /\ nextVotes g = ∅.

(** ** Variants of an answer *)

Definition isUpper (r : rune) : bool := between 65 90 r.

(** A character other than the ASCII letters and digits, the two runes
    above ASCII that lowercase to an ASCII letter (U+0130 to [i], the Kelvin
    sign U+212A to [k]) left aside: the punctuation marks of ASCII and of the
    rest of Unicode, the symbols, the white space, the letters and digits
    outside ASCII. *)
Definition isPunct (r : rune) : Prop :=
  ~ asciiLetterOrDigit r /\ r <> 304 /\ r <> 8490.

(** [Variant a v]: [v] differs from [a] only in the case of ASCII letters,
    in punctuation (a character [isPunct] put in or left out anywhere), and
    in surrounding white space. *)
Inductive Variant : list Z -> list Z -> Prop :=
| Variant_refl s : Variant s s
| Variant_case s1 r s2 :
    isUpper r = true -> Variant (s1 ++ r :: s2) (s1 ++ (r + 32) :: s2)
| Variant_punct s1 r s2 :
    isPunct r -> Variant (s1 ++ s2) (s1 ++ r :: s2)
| Variant_space_left ws s :
    forallb unicode.IsSpace ws = true -> Variant s (ws ++ s)
| Variant_space_right ws s :
    forallb unicode.IsSpace ws = true -> Variant s (s ++ ws)
| Variant_sym s t : Variant s t -> Variant t s
| Variant_trans s t u : Variant s t -> Variant t u -> Variant s u.

(** A rune that survives normalization: an ASCII letter or digit, or one of
    the two runes above ASCII whose lower case is an ASCII letter. *)
Definition lowersToAlphaNum (r : rune) : bool :=
  isAlphaNum r || (r =? 304) || (r =? 8490).

(** ** Concrete games *)

Definition mkQuestion (q a : string) : Question :=
  {| Category := str "Test"; QuestionText := str q; Answer := str a;
     Money := []; Date := []; Episode := 0 |}.

Definition qParis : Question := mkQuestion "Capital of France?" "Paris".
Definition qA : Question := mkQuestion "Q1" "A1".
Definition qB : Question := mkQuestion "Q2" "A2".
Definition qC : Question := mkQuestion "Q3" "A3".
Definition qD : Question := mkQuestion "Q4" "A4".
Definition qLong : Question := mkQuestion "Longest river?" "Amazon River".

(** A question whose answer is the Kelvin sign U+212A alone. *)
Definition qKelvin : Question :=
  {| Category := str "Units"; QuestionText := str "SI unit of temperature?";
     Answer := [8490]; Money := []; Date := []; Episode := 0 |}.

Definition seed0 : Rand := fun n => Z.of_nat n * 7 + 4.

Definition channel0 : gostring := str "#trivia".

(** A game with [q] as its active question and nothing else going on. *)
Definition gameWith (q : option Question) : Game :=
  with_CurrentQuestion q (NewGame [] channel0 seed0).

Definition qPunct : Question := mkQuestion "Which marks end a sentence?" "?!".

(** An answer with a letter outside ASCII, U+00E9, and the answer [I]. *)
Definition qPele : Question :=
  {| Category := str "Test"; QuestionText := str "Who scored 1279 goals?";
     Answer := str "Pel" ++ [233]; Money := []; Date := []; Episode := 0 |}.

Definition qI : Question := mkQuestion "The ninth letter?" "I".

(** A game whose active question has its timeout pending. *)
Definition gameTimed : Game :=
  with_QuestionTimer (Some 0%nat)
    (with_timers [{| delay := 30 * Second; tstate := Pending |}]
       (gameWith (Some qParis))).

(** Five rounds, the refill goroutine getting to run after the first and
    after the fourth. *)
Definition schedule0 : list Action :=
  [CallStartRound; FillRuns; CallStartRound; CallStartRound;
   CallStartRound; FillRuns; CallStartRound].

(** A loop whose game has continuous play switched off. *)
Definition loopIdle : Loop :=
  {| client := {| outbox := [] |}; game := gameWith None;
     nextQuestionTimer := None |}.

(** A loop in continuous play whose timer is armed while the source has
    nothing left. *)
Definition loopExhausted : Loop :=
  {| client := {| outbox := [] |};
     game := SetPlaying true (NewGame [] channel0 seed0);
     nextQuestionTimer := Some nextQuestionDelay |}.

(** A loop in continuous play whose timer is armed, one question left. *)
Definition loopPlaying : Loop :=
  {| client := {| outbox := [] |};
     game := SetPlaying true (NewGame [Yield qParis] channel0 seed0);
     nextQuestionTimer := Some nextQuestionDelay |}.

(** The threshold of the tests, [game.NextVoteThreshold = 2]. *)
Definition gameQuorum2 : Game :=
  with_NextVoteThreshold 2 (gameWith (Some qA)).

Definition orElse {A : Type} (r : Result A) (d : A) : A :=
  match r with
  | Ok a => a
  | Panic _ => d
  end.

(** The game of [TestGetHint] after its [StartRound]. *)
Definition gameParis : Game :=
  orElse
    (let* (_, g) := StartRound (NewGame [Yield qParis] channel0 seed0) in Ok g)
    (gameWith None).

(** [!question], [!hint], one [!skip] vote: the state in which a second
    [!question] arrives while the first question is still active. *)
Definition gameHinted : Game :=
  orElse
    (let* (_, g) := StartRound (NewGame [Yield qParis; Yield qLong] channel0 seed0) in
     let* (_, g) := GetHint g in
     Ok (AddNextVote g (str "user1")).2)
    (gameWith None).

(** The state after that second [StartRound]. *)
Definition gameReplaced : Game :=
  orElse (let* (_, g) := StartRound gameHinted in Ok g) (gameWith None).

(** ** The scoreboard *)

(** A Go [int] that takes part in arithmetic on values the users choose:
    64 bits, two's complement. *)
Definition wrap64 (z : Z) : Z := (z + 2 ^ 63) `mod` 2 ^ 64 - 2 ^ 63.

Definition inInt64 (z : Z) : Prop := - 2 ^ 63 <= z < 2 ^ 63.

(** [Scoreboard]: the map [Scores]; [save] and [load] move it to and from
    [scoreboardFile] and are outside this model, as is the mutex. *)
Record Scoreboard := { Scores : gmap (list Z) Z }.

(** [sb.Scores[player]]: the zero value for a missing key. *)
Definition GetScore (sb : Scoreboard) (player : gostring) : Z :=
  default 0 (Scores sb !! player).

(** [sb.Scores[player] += points]. *)
Definition AddScore (sb : Scoreboard) (player : gostring) (points : Z) : Scoreboard :=
  {| Scores := <[player := wrap64 (GetScore sb player + points)]> (Scores sb) |}.

Definition ResetScores (sb : Scoreboard) : Scoreboard := {| Scores := ∅ |}.

(** A series of [AddScore] calls, first to last. *)
Definition addScores (calls : list (list Z * Z)) (sb : Scoreboard) : Scoreboard :=
  foldl (fun sb c => AddScore sb c.1 c.2) sb calls.

(** The points a series of calls gave to one player. *)
Definition pointsFor (player : gostring) (calls : list (list Z * Z)) : Z :=
  foldr (fun c acc => if decide (c.1 = player) then c.2 + acc else acc) 0 calls.

(** ** Hint masks *)

(** A mask slot shows the answer's rune or hides it. *)
Definition slotAgrees (m a : Z) : Prop := m = underscore \/ m = a.

(** The mask fits the answer: one slot per rune, none showing a wrong one. *)
Definition maskAgrees (mask answer : list Z) : Prop := Forall2 slotAgrees mask answer.

(** The slots still hidden. *)
Definition hiddenSlots (mask : list Z) : nat :=
  length (filter (fun m => m = underscore) mask).

(** ** Votes in a row *)

(** The users of [users] vote one after the other. *)
Definition castVotes (users : list (list Z)) (g : Game) : Game :=
  foldl (fun g user => (AddNextVote g user).2) g users.

(** ** The rest of [cmd/trebek/main.go] *)

(** [strings.HasPrefix] and [strings.TrimPrefix]. *)
Definition HasPrefix (s prefix : gostring) : bool :=
  bool_decide (take (length prefix) s = prefix).

Definition TrimPrefix (s prefix : gostring) : gostring :=
  if HasPrefix s prefix then drop (length prefix) s else s.

(** The verb [%d] of [fmt.Sprintf]. *)
Definition itoa (n : Z) : gostring := str (pretty n).

(** What [main] sets up and its closures share: the client, the game with
    its scoreboard, and the channel [gameStopChan].
    - [gameLoops] counts the [go gameLoop(...)] started;
    - [answerGiven] lists the values sent on [triviaGame.AnswerGiven],
      oldest first (the send itself waits for a loop to receive);
    - [rangeOrder] is the order in which [range] visits a map, which the
      runtime chooses. *)
Record World := {
  ircClient : Client;
  triviaGame : Game;
  scoreboard : Scoreboard;
  gameStopChanClosed : bool;
  gameLoops : nat;
  answerGiven : list bool;
  rangeOrder : gmap (list Z) Z -> list (list Z * Z)
}.

Definition with_game (g : Game) (w : World) : World :=
  {| ircClient := ircClient w; triviaGame := g; scoreboard := scoreboard w;
     gameStopChanClosed := gameStopChanClosed w; gameLoops := gameLoops w;
     answerGiven := answerGiven w; rangeOrder := rangeOrder w |}.

Definition with_scoreboard (sb : Scoreboard) (w : World) : World :=
  {| ircClient := ircClient w; triviaGame := triviaGame w; scoreboard := sb;
     gameStopChanClosed := gameStopChanClosed w; gameLoops := gameLoops w;
     answerGiven := answerGiven w; rangeOrder := rangeOrder w |}.

(** [ircClient.Privmsg(target, text)]. *)
Definition say (target text : gostring) (w : World) : World :=
  {| ircClient := Privmsg (ircClient w) target text;
     triviaGame := triviaGame w; scoreboard := scoreboard w;
     gameStopChanClosed := gameStopChanClosed w; gameLoops := gameLoops w;
     answerGiven := answerGiven w; rangeOrder := rangeOrder w |}.

(** [triviaGame.AnswerGiven <- answered]. *)
Definition sendAnswerGiven (answered : bool) (w : World) : World :=
  {| ircClient := ircClient w; triviaGame := triviaGame w;
     scoreboard := scoreboard w;
     gameStopChanClosed := gameStopChanClosed w; gameLoops := gameLoops w;
     answerGiven := answerGiven w ++ [answered]; rangeOrder := rangeOrder w |}.

(** [go gameLoop(ircClient, triviaGame, gameStopChan)]. *)
Definition goGameLoop (w : World) : World :=
  {| ircClient := ircClient w; triviaGame := triviaGame w;
     scoreboard := scoreboard w;
     gameStopChanClosed := gameStopChanClosed w; gameLoops := S (gameLoops w);
     answerGiven := answerGiven w; rangeOrder := rangeOrder w |}.

(** [close(gameStopChan)]: closing a closed channel panics. *)
Definition closeGameStopChan (w : World) : Result World :=
  if gameStopChanClosed w then Panic "close of closed channel"
  else Ok {| ircClient := ircClient w; triviaGame := triviaGame w;
             scoreboard := scoreboard w;
             gameStopChanClosed := true; gameLoops := gameLoops w;
             answerGiven := answerGiven w; rangeOrder := rangeOrder w |}.

(** [askQuestion(ircClient, triviaGame)] on the shared state. *)
Definition askQuestionW (w : World) : Result World :=
  let* (c, g) := askQuestion (ircClient w) (triviaGame w) in
  Ok {| ircClient := c; triviaGame := g; scoreboard := scoreboard w;
        gameStopChanClosed := gameStopChanClosed w; gameLoops := gameLoops w;
        answerGiven := answerGiven w; rangeOrder := rangeOrder w |}.

(** [GetCurrentQuestion().Answer] and [.Category]: a nil question panics. *)
Definition currentQuestionOrPanic (g : Game) : Result Question :=
  match GetCurrentQuestion g with
  | Some q => Ok q
  | None => Panic "nil pointer dereference"
  end.

Definition handleAnswer (user target answerAttempt : gostring) (w : World)
  : Result World :=
  if CheckAnswer (triviaGame w) answerAttempt then
    let* q := currentQuestionOrPanic (triviaGame w) in
    let w := say target
               (str "Correct, " ++ user ++ str "! The answer was: " ++ Answer q) w in
    let w := with_scoreboard (AddScore (scoreboard w) user 1) w in
    let w := with_game (ClearCurrentQuestion (triviaGame w)) w in
    if GetPlaying (triviaGame w) then Ok (sendAnswerGiven true w) else Ok w
  else
    Ok (say target (str "Sorry, " ++ user ++ str ", that's not correct.") w).

(** The function given to [time.AfterFunc] in [askQuestion]. *)
Definition questionTimeout (w : World) : Result World :=
  match GetCurrentQuestion (triviaGame w) with
  | Some _ =>
      let* q := currentQuestionOrPanic (triviaGame w) in
      let w := say (GameChannel (triviaGame w))
                 (str "Time's up! The answer was: " ++ Answer q) w in
      let w := with_game (ClearCurrentQuestion (triviaGame w)) w in
      if GetPlaying (triviaGame w) then Ok (sendAnswerGiven false w) else Ok w
  | None => Ok w
  end.

(** The runtime lets timer [t] fire: only a pending timer runs its function. *)
Definition fireTimer (t : nat) (w : World) : Result World :=
  match timers (triviaGame w) !! t with
  | Some tm =>
      match tstate tm with
      | Pending =>
          let fired := {| delay := delay tm; tstate := Fired |} in
          questionTimeout
            (with_game (with_timers (<[t := fired]> (timers (triviaGame w)))
                          (triviaGame w)) w)
      | _ => Ok w
      end
  | None => Ok w
  end.

(** *** [!topscores] *)

(** [if players[i].score < players[j].score { swap }]. *)
Definition swapIfLess (i j : nat) (players : list (list Z * Z)) : list (list Z * Z) :=
  match players !! i, players !! j with
  | Some pi, Some pj =>
      if pi.2 <? pj.2 then <[j := pi]> (<[i := pj]> players) else players
  | _, _ => players
  end.

(** [for j := i + 1; j < len(players); j++], [n] iterations left. *)
Fixpoint sortInner (n i j : nat) (players : list (list Z * Z)) : list (list Z * Z) :=
  match n with
  | O => players
  | S n' => sortInner n' i (S j) (swapIfLess i j players)
  end.

(** [for i := 0; i < len(players); i++], [n] iterations left. *)
Fixpoint sortOuter (n i : nat) (players : list (list Z * Z)) : list (list Z * Z) :=
  match n with
  | O => players
  | S n' =>
      sortOuter n' (S i) (sortInner (length players - S i) i (S i) players)
  end.

Definition sortPlayers (players : list (list Z * Z)) : list (list Z * Z) :=
  sortOuter (length players) 0 players.

(** [fmt.Sprintf("%s: %d ", p.name, p.score)]. *)
Definition scoreEntry (p : list Z * Z) : gostring :=
  p.1 ++ str ": " ++ itoa p.2 ++ str " ".

Definition topScores (players : list (list Z * Z)) : gostring :=
  str "Top Scores: " ++ concat (scoreEntry <$> take 5 (sortPlayers players)).

(** *** The handler *)

Definition msgHelp : gostring :=
  str "Commands: !start, !stop, !question, !answer <your answer>, !hint, !score, !topscores, !resetscoreboard, !skip, !help".

Definition msgRunning : gostring :=
  str "Trivia is running continuously. Please use !stop to end continuous play if you want to ask questions manually.".

(** [ircClient.Handler], the [switch] of the commands as an if-chain in the
    order of its cases. *)
Definition Handler (target user message : gostring) (w : World) : Result World :=
  let g := triviaGame w in
  let msgLower := strings.ToLower message in
  if HasPrefix message (str "!") then
    if HasPrefix msgLower (str "!hello") then
      Ok (say target (str "Hello, " ++ user ++ str "!") w)
    else if HasPrefix msgLower (str "!start") then
      if GetPlaying g then Ok (say target (str "Trivia is already running!") w)
      else
        let w := with_game (SetPlaying true g) w in
        let w := say target (str "Starting continuous trivia!") w in
        let w := goGameLoop w in
        askQuestionW w
    else if HasPrefix msgLower (str "!stop") then
      if negb (GetPlaying g)
      then Ok (say target (str "Trivia is not currently running.") w)
      else
        let w := with_game (SetPlaying false g) w in
        let* w := closeGameStopChan w in
        Ok (say target (str "Stopping continuous trivia.") w)
    else if HasPrefix msgLower (str "!question") then
      if GetPlaying g then Ok (say target msgRunning w)
      else askQuestionW w
    else if HasPrefix msgLower (str "!answer ") then
      match GetCurrentQuestion g with
      | None =>
          Ok (say target
                (str "No question is currently active. Type !question to get one.") w)
      | Some _ =>
          let answerAttempt := TrimPrefix message (str "!answer ") in
          handleAnswer user target answerAttempt w
      end
    else if HasPrefix msgLower (str "!hint") then
      let* (hint, given, g') := GetHint g in
      let w := with_game g' w in
      if given then
        let* q := currentQuestionOrPanic g' in
        let w := say target (str "Hint for " ++ Category q ++ str ": " ++ hint) w in
        Ok (with_scoreboard (AddScore (scoreboard w) user (- HintCost)) w)
      else Ok (say target hint w)
    else if HasPrefix msgLower (str "!score") then
      let score := GetScore (scoreboard w) user in
      Ok (say target (user ++ str "'s score: " ++ itoa score) w)
    else if HasPrefix msgLower (str "!topscores") then
      let scores := Scores (scoreboard w) in
      if (size scores =? 0)%nat then Ok (say target (str "No scores yet!") w)
      else Ok (say target (topScores (rangeOrder w scores)) w)
    else if HasPrefix msgLower (str "!resetscoreboard") then
      let w := with_scoreboard (ResetScores (scoreboard w)) w in
      Ok (say target (str "Scoreboard has been reset!") w)
    else if HasPrefix msgLower (str "!skip") then
      match GetCurrentQuestion g with
      | None => Ok (say target (str "No question is currently active to skip.") w)
      | Some _ =>
          let '(currentVotes, threshold, skipped, g') := AddNextVote g user in
          let w := with_game g' w in
          if skipped then
            let* q := currentQuestionOrPanic g' in
            let w := say target
                       (str "Question skipped! The answer was: " ++ Answer q) w in
            let w := with_game (ClearCurrentQuestion (triviaGame w)) w in
            if GetPlaying (triviaGame w) then Ok (sendAnswerGiven false w) else Ok w
          else
            Ok (say target
                  (user ++ str " voted to skip. " ++ itoa currentVotes ++ str "/"
                   ++ itoa threshold ++ str " votes to skip.") w)
      end
    else if HasPrefix msgLower (str "!help") then Ok (say target msgHelp w)
    else
      Ok (say target
            (str "Unknown command: " ++ message ++ str ". Type !help for commands.") w)
  else if GetPlaying g && bool_decide (GetCurrentQuestion g <> None) then
    handleAnswer user target message w
  else Ok w.

(** The handler over the messages that arrive, until one panics. *)
Fixpoint handleAll (msgs : list (list Z * list Z * list Z)) (w : World) : Result World :=
  match msgs with
  | [] => Ok w
  | (target, user, message) :: msgs' =>
      let* w := Handler target user message w in
      handleAll msgs' w
  end.

(** [main] before the first message. *)
Definition newWorld (g : Game) (order : gmap (list Z) Z -> list (list Z * Z)) : World :=
  {| ircClient := {| outbox := [] |}; triviaGame := g;
     scoreboard := {| Scores := ∅ |};
     gameStopChanClosed := false; gameLoops := 0;
     answerGiven := []; rangeOrder := order |}.

(** *** The sort, list by list *)

(** One pass of the inner loop over the players after position [i]: the
    player held at [i] and the players left behind. *)
Fixpoint sweep (x : list Z * Z) (rest : list (list Z * Z))
  : (list Z * Z) * list (list Z * Z) :=
  match rest with
  | [] => (x, [])
  | y :: rest' =>
      if x.2 <? y.2
      then let '(m, r) := sweep y rest' in (m, x :: r)
      else let '(m, r) := sweep x rest' in (m, y :: r)
  end.

Fixpoint sortFrom (n : nat) (l : list (list Z * Z)) : list (list Z * Z) :=
  match n, l with
  | S n', x :: rest => let '(m, r) := sweep x rest in m :: sortFrom n' r
  | _, _ => l
  end.

(** ** The reader of [internal/irc] *)

(** [strings.SplitN(s, sep, 2)] for a non-empty [sep]: the text before and
    after the first occurrence of [sep], or nothing if there is none (the
    call then returns the one-element slice, and [strings.Contains] is
    false). *)
Fixpoint splitFirst (sep s : gostring) : option (list Z * list Z) :=
  if HasPrefix s sep then Some ([], drop (length sep) s)
  else
    match s with
    | [] => None
    | c :: t =>
        match splitFirst sep t with
        | Some (before, after) => Some (c :: before, after)
        | None => None
        end
    end.

(** What one turn of the loop of [Listen] does with the line it read. *)
Inductive LineAction :=
| SendPong (token : list Z)
| CallHandler (target user message : list Z)
| NextLine.

(** The body of the loop of [Listen], from the line read to its effect:
    [c.Send("PONG :%s", ...)], [c.Handler(target, user, message)], or
    nothing. *)
Definition Listen_line (line : gostring) : LineAction :=
  let line := strings.TrimSpace line in
  if HasPrefix line (str "PING :") then
    SendPong (TrimPrefix line (str "PING :"))
  else
    match splitFirst (str " PRIVMSG ") line with
    | None => NextLine
    | Some (prefix, messagePart) =>
        let user :=
          if HasPrefix prefix (str ":") then
            match splitFirst (str "!") (drop 1 prefix) with
            | Some (nick, _) => nick
            | None => drop 1 prefix
            end
          else [] in
        match splitFirst (str " :") messagePart with
        | None => NextLine
        | Some (target, message) =>
            CallHandler (strings.TrimSpace target) user (strings.TrimSpace message)
        end
    end.

(** The line [Privmsg] writes: [c.Send("PRIVMSG %s :%s", target, message)]
    followed by the line end [Send] adds. *)
Definition privmsgLine (target message : gostring) : gostring :=
  str "PRIVMSG " ++ target ++ str " :" ++ message ++ [13; 10].

(** No white space in a string. *)
Definition noSpace (s : gostring) : Prop :=
  Forall (fun r => unicode.IsSpace r = false) s.

(** The loop of [Listen] over the text the server sends, as the list of its
    effects in order.  [line] is what [c.reader.ReadString('\n')] has read of
    the current line: the read ends with the first line feed, which belongs
    to the line, and the loop body runs on that line; when the input ends
    first, [ReadString] returns an error and [Listen] closes and returns. *)
Fixpoint Listen_read (line input : gostring) : list LineAction :=
  match input with
  | [] => []
  | c :: rest =>
      if c =? 10 then Listen_line (line ++ [c]) :: Listen_read [] rest
      else Listen_read (line ++ [c]) rest
  end.

Definition Listen (input : gostring) : list LineAction := Listen_read [] input.

(** ** More concrete inputs *)

(** A loop in its [select] sees the client and the game as they are now;
    what it did is seen by everyone else. *)
Definition loopOn (timer : option Z) (w : World) : Loop :=
  {| client := ircClient w; game := triviaGame w; nextQuestionTimer := timer |}.

Definition afterLoop (l : Loop) (w : World) : World :=
  {| ircClient := client l; triviaGame := game l; scoreboard := scoreboard w;
     gameStopChanClosed := gameStopChanClosed w; gameLoops := gameLoops w;
     answerGiven := answerGiven w; rangeOrder := rangeOrder w |}.

Definition continued (r : Result LoopStep) (d : Loop) : Loop :=
  match r with
  | Ok (Continue l) => l
  | _ => d
  end.

(** A source that fails three times between its two questions. *)
Definition worldFlaky : World :=
  newWorld (NewGame [Yield qA; Fail; Fail; Fail; Yield qB] channel0 seed0)
    map_to_list.

(** [!start] (the first loop is started and [qA] asked), the refill
    goroutine runs, then the right answer arrives. *)
Definition worldFlakyAnswered : World :=
  let w1 := orElse (Handler channel0 (str "ann") (str "!start") worldFlaky)
              worldFlaky in
  let w1 := with_game (runFill (triviaGame w1)) w1 in
  orElse (Handler channel0 (str "ann") (str "A1") w1) w1.

(** The first loop receives the round-ended event and then its timer:
    [StartRound] meets the third failure and returns none. *)
Definition loopFlakyExhausted : Loop :=
  continued
    (gameLoop [AnswerGivenRecv true; TimerC]
       (gameLoop_enter (ircClient worldFlakyAnswered)
          (triviaGame worldFlakyAnswered)))
    loopIdle.

(** A second [!start]: [qB] is asked and a second loop started.  The first
    loop is still in its [select], its timer armed. *)
Definition worldFlakyRestarted : World :=
  let w := afterLoop loopFlakyExhausted worldFlakyAnswered in
  orElse (Handler channel0 (str "bob") (str "!start") w) w.

Definition loopFlakyLeaked : Loop :=
  loopOn (nextQuestionTimer loopFlakyExhausted) worldFlakyRestarted.

(** A question whose answer holds an underscore of its own, its round just
    started, and the same round after two hints. *)
Definition qUnderscore : Question := mkQuestion "A name with an underscore?" "a_b".

Definition gameUnderscore : Game :=
  orElse
    (let* (_, g) := StartRound (NewGame [Yield qUnderscore] channel0 seed0) in Ok g)
    (gameWith None).

Definition gameUnderscore2 : Game :=
  orElse
    (let* (_, g) := GetHint gameUnderscore in
     let* (_, g) := GetHint g in Ok g)
    (gameWith None).

(** A question whose answer is blank. *)
Definition qBlank : Question := mkQuestion "Say nothing." "  ".

(** The round of [qBlank], just started. *)
Definition gameBlank : Game :=
  orElse
    (let* (_, g) := StartRound (NewGame [Yield qBlank] channel0 seed0) in Ok g)
    (gameWith None).

(** [main] with four questions to ask, before the first message. *)
Definition world0 : World :=
  newWorld (NewGame [Yield qA; Yield qB; Yield qC; Yield qD] channel0 seed0)
    map_to_list.

(** The same once [!question] has been handled. *)
Definition worldAsked : World :=
  orElse (Handler channel0 (str "ann") (str "!question") world0) world0.

(** The round of [worldAsked] cleared, and a further question asked after
    that. *)
Definition worldCleared : World :=
  with_game (ClearCurrentQuestion (triviaGame worldAsked)) worldAsked.

Definition worldNext : World := orElse (askQuestionW worldCleared) worldCleared.

(** [!question] twice in a row. *)
Definition worldAskedTwice : World :=
  orElse (Handler channel0 (str "ann") (str "!question") worldAsked) world0.

Definition startStopStartStop : list (list Z * list Z * list Z) :=
  [(channel0, str "ann", str "!start"); (channel0, str "ann", str "!stop");
   (channel0, str "bob", str "!start"); (channel0, str "bob", str "!stop")].

(** [!start] has been handled: continuous play with a loop running. *)
Definition worldStarted : World :=
  orElse (Handler channel0 (str "ann") (str "!start") world0) world0.

(** A game whose source failed during [NewGame] and will fail once more
    before it gives its only question. *)
Definition gameFlaky : Game := NewGame [Fail; Fail; Yield qParis] channel0 seed0.

Definition scoreCalls0 : list (list Z * Z) :=
  [(str "ann", 1); (str "bob", 1); (str "ann", - HintCost); (str "ann", 1)].

(** * Properties *)

(** ** Normalization *)

Ltac bool_to_Z :=
  rewrite ?Bool.orb_true_iff, ?Bool.andb_true_iff, ?Bool.negb_true_iff,
    ?Bool.orb_false_iff, ?Bool.andb_false_iff, ?Z.leb_le, ?Z.eqb_eq,
    ?Z.leb_gt, ?Z.eqb_neq in *.

Lemma isAlphaNum_false_iff r :
  isAlphaNum r = false <->
  ~ (97 <= r <= 122 \/ 65 <= r <= 90 \/ 48 <= r <= 57).
Proof.
  rewrite <- Bool.not_true_iff_false. unfold isAlphaNum, between.
  bool_to_Z. tauto.
Qed.

Lemma IsSpace_not_alphanum r :
  unicode.IsSpace r = true -> isAlphaNum r = false.
Proof.
  intros H. apply isAlphaNum_false_iff.
  unfold unicode.IsSpace, between in H. bool_to_Z. lia.
Qed.

Lemma ToLower_IsSpace r :
  unicode.IsSpace r = true -> unicode.ToLower r = r.
Proof.
  intros H. unfold unicode.IsSpace, between in H. bool_to_Z.
  unfold unicode.ToLower, between.
  repeat match goal with
         | |- context [if ?b then _ else _] => destruct b eqn:?
         end; bool_to_Z; lia.
Qed.

Lemma ToLower_upper r :
  isUpper r = true ->
  unicode.ToLower r = r + 32 /\ unicode.ToLower (r + 32) = r + 32.
Proof.
  unfold isUpper, between. intros H. bool_to_Z.
  unfold unicode.ToLower, between.
  repeat match goal with
         | |- context [if ?b then _ else _] => destruct b eqn:?
         end; bool_to_Z; lia.
Qed.

Lemma isAlphaNum_ascii r : isAlphaNum r = true <-> asciiLetterOrDigit r.
Proof.
  unfold isAlphaNum, asciiLetterOrDigit, between. bool_to_Z. lia.
Qed.

Lemma ToLower_punct r :
  isPunct r -> isAlphaNum (unicode.ToLower r) = false.
Proof.
  unfold isPunct, asciiLetterOrDigit. intros (Hn & H1 & H2).
  apply isAlphaNum_false_iff.
  unfold unicode.ToLower, between.
  repeat match goal with
         | |- context [if ?b then _ else _] => destruct b eqn:?
         end; bool_to_Z; lia.
Qed.

(** Replacing every match by the empty string keeps exactly the letters and
    digits, whatever the scanner's position in a run. *)
Lemma replaceRuns_empty inRun s :
  replaceRuns inRun [] s = filter (fun r => isAlphaNum r = true) s.
Proof.
  revert inRun. induction s as [|r t IH]; intros inRun; [done|].
  cbn [replaceRuns]. destruct (isAlphaNum r) eqn:E.
  - rewrite filter_cons_True by done. by rewrite IH.
  - rewrite filter_cons_False by congruence.
    destruct inRun; cbn; apply IH.
Qed.

Lemma filter_dropWhile_alphanum (p : Z -> bool) s :
  (forall r, p r = true -> isAlphaNum r = false) ->
  filter (fun r => isAlphaNum r = true) (strings.dropWhile p s)
  = filter (fun r => isAlphaNum r = true) s.
Proof.
  intros Hp. induction s as [|r t IH]; [done|].
  cbn [strings.dropWhile]. destruct (p r) eqn:E; [|done].
  rewrite filter_cons_False; [done|]. rewrite (Hp r E). congruence.
Qed.

Lemma filter_TrimSpace s :
  filter (fun r => isAlphaNum r = true) (strings.TrimSpace s)
  = filter (fun r => isAlphaNum r = true) s.
Proof.
  unfold strings.TrimSpace, strings.TrimRightFunc, strings.TrimLeftFunc.
  rewrite filter_reverse, filter_dropWhile_alphanum by apply IsSpace_not_alphanum.
  rewrite filter_reverse, reverse_involutive.
  apply filter_dropWhile_alphanum, IsSpace_not_alphanum.
Qed.

(** The code computes the normalization of the design note. *)
Lemma normalizeAnswer_spec s : normalizeAnswer s = normalize_spec s.
Proof.
  unfold normalizeAnswer, normalize_spec. cbn zeta.
  unfold regNonAlphaNum_ReplaceAllString. rewrite replaceRuns_empty.
  apply list_filter_iff, isAlphaNum_ascii.
Qed.

Lemma normalizeAnswer_filter s :
  normalizeAnswer s
  = filter (fun r => isAlphaNum r = true) (unicode.ToLower <$> s).
Proof.
  unfold normalizeAnswer. cbn zeta.
  unfold regNonAlphaNum_ReplaceAllString. rewrite replaceRuns_empty.
  apply filter_TrimSpace.
Qed.

Lemma normalizeAnswer_app s t :
  normalizeAnswer (s ++ t) = normalizeAnswer s ++ normalizeAnswer t.
Proof. rewrite !normalizeAnswer_filter, fmap_app. apply filter_app. Qed.

Lemma normalizeAnswer_spaces ws :
  forallb unicode.IsSpace ws = true -> normalizeAnswer ws = [].
Proof.
  rewrite normalizeAnswer_filter. induction ws as [|r t IH]; [done|].
  cbn [forallb]. intros [Hr Ht]%Bool.andb_true_iff.
  rewrite fmap_cons, filter_cons_False; [auto|].
  rewrite (ToLower_IsSpace r Hr), (IsSpace_not_alphanum r Hr). congruence.
Qed.

Lemma Variant_normalize a v :
  Variant a v -> normalizeAnswer a = normalizeAnswer v.
Proof.
  induction 1 as [s|s1 r s2 Hr|s1 r s2 Hr|ws s Hws|ws s Hws| |].
  - done.
  - rewrite !normalizeAnswer_app. f_equal.
    change (r :: s2) with ([r] ++ s2). change ((r + 32) :: s2) with ([r + 32] ++ s2).
    rewrite !normalizeAnswer_app. f_equal.
    rewrite !normalizeAnswer_filter. cbn [fmap list_fmap].
    destruct (ToLower_upper r Hr) as [-> ->]. done.
  - rewrite !normalizeAnswer_app. f_equal.
    change (r :: s2) with ([r] ++ s2). rewrite normalizeAnswer_app.
    rewrite (normalizeAnswer_filter [r]). cbn [fmap list_fmap].
    rewrite filter_cons_False; [done|].
    rewrite (ToLower_punct r Hr). congruence.
  - by rewrite normalizeAnswer_app, (normalizeAnswer_spaces ws).
  - by rewrite normalizeAnswer_app, (normalizeAnswer_spaces ws), app_nil_r.
  - done.
  - congruence.
Qed.

(** ** Answer checking *)

Lemma CheckAnswer_active g q submission :
  CurrentQuestion g = Some q ->
  CheckAnswer g submission = true <->
  normalizeAnswer submission = normalizeAnswer (Answer q).
Proof.
  intros Hq. unfold CheckAnswer. rewrite Hq. cbn zeta.
  apply bool_decide_eq_true.
Qed.

(** C2, as the code has it.  With a question active, [CheckAnswer]
    normalizes the submission and the stored answer (lowercase, trim the
    surrounding white space, strip every character that is not an ASCII
    letter or digit) and returns true exactly when the two normal forms are
    equal; hence every variant of the answer that differs only in the case
    of ASCII letters, in surrounding white space or in punctuation (any
    characters other than ASCII letters and digits, U+0130 and U+212A left
    aside) is accepted, and so is [" pa-ris "] for the answer ["Paris"]. *)
Theorem CheckAnswer_normalized (g : Game) (q : Question) :
  CurrentQuestion g = Some q ->
  (forall s, normalizeAnswer s = normalize_spec s) /\
  (forall submission,
      CheckAnswer g submission = true <->
      normalize_spec submission = normalize_spec (Answer q)) /\
  (forall v, Variant (Answer q) v -> CheckAnswer g v = true) /\
  (Answer q = str "Paris" -> CheckAnswer g (str " pa-ris ") = true).
Proof.
  intros Hq. split; [apply normalizeAnswer_spec|]. split; [|split].
  - intros s. rewrite <- !normalizeAnswer_spec. by apply CheckAnswer_active.
  - intros v Hv. apply (CheckAnswer_active g q v Hq).
    symmetry. by apply Variant_normalize.
  - intros Ha. apply (CheckAnswer_active g q _ Hq). by rewrite Ha.
Qed.

Lemma CheckAnswer_normalized_witness :
  CurrentQuestion gameParis = Some qParis /\
  Answer qParis = str "Paris" /\
  CheckAnswer gameParis (str " pa-ris ") = true /\
  CheckAnswer gameParis (str "PARIS!") = true /\
  CheckAnswer gameParis (str "London") = false.
Proof.
  pose proof (CheckAnswer_normalized gameParis qParis eq_refl)
    as (_ & Hiff & _ & Hparis).
  split; [reflexivity|]. split; [reflexivity|].
  split; [exact (Hparis eq_refl)|].
  split; [apply Hiff; vm_compute; reflexivity|].
  apply Bool.not_true_is_false. intros Hc. apply Hiff in Hc.
  vm_compute in Hc. discriminate Hc.
Defined.

(** C2 as stated fails twice outside ASCII.  A letter outside ASCII is
    stripped like punctuation: for the answer [Pel] followed by U+00E9 the
    submission ["pel"] is accepted, although the forms that keep every
    letter and digit differ.  And a case variant can be refused: the dotless
    i, U+0131, has the capital [I], yet it is refused for the answer
    ["I"]. *)
Lemma CheckAnswer_non_ascii_counterexample :
  (CurrentQuestion (gameWith (Some qPele)) = Some qPele /\
   Answer qPele = str "Pel" ++ [233] /\
   unicode.IsLetter 233 = true /\
   normalize_words (str "pel") <> normalize_words (Answer qPele) /\
   CheckAnswer (gameWith (Some qPele)) (str "pel") = true) /\
  (CurrentQuestion (gameWith (Some qI)) = Some qI /\
   Answer qI = str "I" /\
   strings.ToUpper [305] = strings.ToUpper (Answer qI) /\
   CheckAnswer (gameWith (Some qI)) [305] = false).
Proof.
  split.
  - split; [reflexivity|]. split; [reflexivity|]. split; [reflexivity|].
    split; [vm_compute; discriminate|vm_compute; reflexivity].
  - split; [reflexivity|]. split; [reflexivity|].
    split; vm_compute; reflexivity.
Qed.

Lemma lowersToAlphaNum_false r :
  lowersToAlphaNum r = false -> isAlphaNum (unicode.ToLower r) = false.
Proof.
  unfold lowersToAlphaNum. intros H.
  apply Bool.orb_false_iff in H as [H H2].
  apply Bool.orb_false_iff in H as [H H1].
  apply isAlphaNum_false_iff in H. apply isAlphaNum_false_iff.
  bool_to_Z. unfold unicode.ToLower, between.
  repeat match goal with
         | |- context [if ?b then _ else _] => destruct b eqn:?
         end; bool_to_Z; lia.
Qed.

Lemma normalizeAnswer_nothing_survives s :
  Forall (fun r => lowersToAlphaNum r = false) s -> normalizeAnswer s = [].
Proof.
  rewrite normalizeAnswer_filter. induction 1 as [|r t Hr _ IH]; [done|].
  rewrite fmap_cons, filter_cons_False; [done|].
  rewrite (lowersToAlphaNum_false r Hr). congruence.
Qed.

(** C10, as the code has it.  An answer and a submission in which no rune
    survives normalization (no ASCII letter or digit, and neither U+0130 nor
    the Kelvin sign U+212A, which lowercase to [i] and [k]) both normalize to
    the empty string, and [CheckAnswer] accepts the submission. *)
Theorem CheckAnswer_empty_normal_forms (g : Game) (q : Question) (submission : list Z) :
  CurrentQuestion g = Some q ->
  Forall (fun r => lowersToAlphaNum r = false) (Answer q) ->
  Forall (fun r => lowersToAlphaNum r = false) submission ->
  normalizeAnswer (Answer q) = [] /\
  normalizeAnswer submission = [] /\
  CheckAnswer g submission = true.
Proof.
  intros Hq Ha Hs.
  pose proof (normalizeAnswer_nothing_survives _ Ha) as Ea.
  pose proof (normalizeAnswer_nothing_survives _ Hs) as Es.
  split; [done|]. split; [done|].
  apply (CheckAnswer_active g q submission Hq). congruence.
Qed.

Lemma CheckAnswer_empty_normal_forms_witness :
  CheckAnswer (gameWith (Some qPunct)) (str " - ") = true
  /\ CheckAnswer (gameWith (Some qPunct)) [] = true.
Proof.
  split.
  - apply (CheckAnswer_empty_normal_forms (gameWith (Some qPunct)) qPunct (str " - ")).
    + reflexivity.
    + repeat constructor.
    + repeat constructor.
  - apply (CheckAnswer_empty_normal_forms (gameWith (Some qPunct)) qPunct []).
    + reflexivity.
    + repeat constructor.
    + constructor.
Defined.

(** C10 as stated fails: the Kelvin sign is no ASCII letter or digit, yet
    the answer made of it normalizes to ["k"], and the empty submission is
    refused. *)
Lemma CheckAnswer_kelvin_counterexample :
  CurrentQuestion (gameWith (Some qKelvin)) = Some qKelvin /\
  Forall (fun r => isAlphaNum r = false) (Answer qKelvin) /\
  Forall (fun r => isAlphaNum r = false) ([] : list Z) /\
  normalizeAnswer (Answer qKelvin) = str "k" /\
  CheckAnswer (gameWith (Some qKelvin)) [] = false.
Proof.
  split; [reflexivity|]. split; [repeat constructor|].
  split; [constructor|]. split; reflexivity.
Qed.

(** ** Starting and clearing a round *)

Lemma fillQuestionBufferUnlocked_frame g :
  let g' := fillQuestionBufferUnlocked g in
  CurrentQuestion g' = CurrentQuestion g /\ hintCount g' = hintCount g /\
  hintMask g' = hintMask g /\ nextVotes g' = nextVotes g /\
  NextVoteThreshold g' = NextVoteThreshold g /\ IsPlaying g' = IsPlaying g /\
  GameChannel g' = GameChannel g /\ QuestionTimer g' = QuestionTimer g /\
  timers g' = timers g.
Proof.
  unfold fillQuestionBufferUnlocked.
  destruct (fillLoop (questionSource g) (questionBuffer g)) as [qs buf].
  cbn. tauto.
Qed.

Lemma Intn_ok n r :
  0 < n -> Intn n r = Ok (r 0%nat `mod` n, fun k => r (S k)).
Proof.
  intros Hn. unfold Intn. destruct (Z.leb_spec n 0); [lia|done].
Qed.

(** [StartRound] never panics: the index drawn is inside the buffer.  It
    returns none exactly when the buffer is still empty after the refill. *)
Lemma StartRound_cases g :
  (questionBuffer (refilled g) = [] /\ StartRound g = Ok (None, refilled g))
  \/ (exists i q,
        questionBuffer (refilled g) !! i = Some q /\
        StartRound g = Ok (Some q, taken i q (refilled g))).
Proof.
  unfold StartRound. fold (refilled g). set (g1 := refilled g).
  destruct (questionBuffer g1) as [|q0 buf] eqn:Eb; [by left|].
  right. rewrite <- Eb.
  assert (0 < Z.of_nat (length (questionBuffer g1))) as Hlen
    by (rewrite Eb; cbn [length]; lia).
  replace (length (questionBuffer g1) =? 0)%nat with false
    by (symmetry; apply Nat.eqb_neq; lia).
  rewrite Intn_ok by done. cbn [bind].
  set (i := Z.to_nat _).
  assert (i < length (questionBuffer g1))%nat as Hi.
  { subst i. pose proof (Z.mod_pos_bound (rand g1 0%nat) _ Hlen). lia. }
  destruct (lookup_lt_is_Some_2 _ _ Hi) as [q Hq].
  exists i, q. split; [done|]. by rewrite Hq.
Qed.

Lemma StartRound_total g : exists r g', StartRound g = Ok (r, g').
Proof.
  destruct (StartRound_cases g) as [[_ ->]|(i & q & _ & ->)]; eauto.
Qed.

Lemma refilled_frame g :
  CurrentQuestion (refilled g) = CurrentQuestion g /\
  hintCount (refilled g) = hintCount g /\
  hintMask (refilled g) = hintMask g /\
  nextVotes (refilled g) = nextVotes g /\
  NextVoteThreshold (refilled g) = NextVoteThreshold g /\
  IsPlaying (refilled g) = IsPlaying g /\
  GameChannel (refilled g) = GameChannel g /\
  QuestionTimer (refilled g) = QuestionTimer g /\
  timers (refilled g) = timers g.
Proof.
  unfold refilled. destruct (length (questionBuffer g) =? 0)%nat.
  - apply fillQuestionBufferUnlocked_frame.
  - tauto.
Qed.

(** What [StartRound] leaves alone, whatever it returns. *)
Lemma StartRound_frame g r g' :
  StartRound g = Ok (r, g') ->
  CurrentQuestion g' = match r with Some q => Some q | None => CurrentQuestion g end /\
  hintCount g' = hintCount g /\ hintMask g' = hintMask g /\
  nextVotes g' = nextVotes g /\
  NextVoteThreshold g' = NextVoteThreshold g /\
  IsPlaying g' = IsPlaying g /\ GameChannel g' = GameChannel g /\
  QuestionTimer g' = QuestionTimer g /\ timers g' = timers g.
Proof.
  pose proof (refilled_frame g) as F.
  destruct (StartRound_cases g) as [[_ ->]|(i & q & _ & ->)];
    intros [= <- <-]; cbn; tauto.
Qed.

(** C1, what the code does: a successful [StartRound] installs the question
    it returns and leaves the hint mask, the hint counter and the skip votes
    as they were.  They are fresh only if they were fresh before the call;
    when the call replaces an active question, the hints and votes of the
    replaced question stay in place for the new one. *)
Theorem StartRound_keeps_hint_state (g : Game) (q : Question) (g' : Game) :
  StartRound g = Ok (Some q, g') ->
  GetCurrentQuestion g' = Some q /\
  hintMask g' = hintMask g /\
  hintCount g' = hintCount g /\
  nextVotes g' = nextVotes g.
Proof.
  intros H. apply StartRound_frame in H. unfold GetCurrentQuestion. tauto.
Qed.

Lemma StartRound_replace_witness :
  CurrentQuestion gameHinted = Some qParis /\
  StartRound gameHinted = Ok (Some qLong, gameReplaced) /\
  GetCurrentQuestion gameReplaced = Some qLong /\
  hintMask gameReplaced = str "_a___" /\
  hintCount gameReplaced = 1 /\
  nextVotes gameReplaced = {[ str "user1" := true ]}.
Proof.
  assert (StartRound gameHinted = Ok (Some qLong, gameReplaced)) as H
    by (vm_compute; reflexivity).
  destruct (StartRound_keeps_hint_state gameHinted qLong gameReplaced H)
    as (Hq & Hm & Hc & Hv).
  split; [vm_compute; reflexivity|]. split; [exact H|]. split; [exact Hq|].
  split; [rewrite Hm; vm_compute; reflexivity|].
  split; [rewrite Hc; vm_compute; reflexivity|].
  rewrite Hv. vm_compute. reflexivity.
Defined.

(** The stale mask is shorter than the new answer: the next [!hint] indexes
    it out of range. *)
Example GetHint_after_replace_panics :
  GetHint gameReplaced = Panic "index out of range".
Proof. vm_compute. reflexivity. Qed.

Lemma AddNextVote_duplicate g q user b :
  CurrentQuestion g = Some q ->
  nextVotes g !! user = Some b ->
  AddNextVote g user
  = (Z.of_nat (size (nextVotes g)), NextVoteThreshold g, false, g).
Proof. intros Hq Hu. unfold AddNextVote. by rewrite Hq, Hu. Qed.

Lemma AddNextVote_new g q user :
  CurrentQuestion g = Some q ->
  nextVotes g !! user = None ->
  AddNextVote g user
  = (Z.of_nat (size (nextVotes g)) + 1, NextVoteThreshold g,
     NextVoteThreshold g <=? Z.of_nat (size (nextVotes g)) + 1,
     with_nextVotes (<[user := true]> (nextVotes g)) g).
Proof.
  intros Hq Hu. unfold AddNextVote. rewrite Hq, Hu. cbn.
  rewrite map_size_insert_None by done.
  replace (Z.of_nat (S (size (nextVotes g))))
    with (Z.of_nat (size (nextVotes g)) + 1) by lia.
  by destruct (_ <=? _).
Qed.

(** X25. [ClearCurrentQuestion] is unconditional: whatever the state, no
    question is active afterwards, the hint counter is 0, the hint mask and
    the skip votes are empty, and the timeout the game holds in
    [QuestionTimer] is no longer pending; a vote cast in the next round
    counts as the first one. *)
Theorem ClearCurrentQuestion_clears (g : Game) :
  GetCurrentQuestion (ClearCurrentQuestion g) = None /\
  hintCount (ClearCurrentQuestion g) = 0 /\
  hintMask (ClearCurrentQuestion g) = [] /\
  nextVotes (ClearCurrentQuestion g) = ∅ /\
  (forall t tm,
      QuestionTimer g = Some t ->
      timers (ClearCurrentQuestion g) !! t = Some tm ->
      tstate tm <> Pending) /\
  (forall user q g1,
      StartRound (ClearCurrentQuestion g) = Ok (Some q, g1) ->
      AddNextVote g1 user
      = (1, NextVoteThreshold g, NextVoteThreshold g <=? 1,
         with_nextVotes {[ user := true ]} g1)).
Proof.
  unfold ClearCurrentQuestion, GetCurrentQuestion. cbn [QuestionTimer with_nextVotes
    with_hintMask with_hintCount with_CurrentQuestion].
  destruct (QuestionTimer g) as [t0|] eqn:Et; cbn;
    (split; [done|]); (split; [done|]); (split; [done|]); (split; [done|]);
    split.
  - intros t tm [= <-] Htm.
    rewrite list_lookup_alter_eq in Htm.
    destruct (timers g !! t0) as [tm0|]; cbn in Htm; [|done].
    injection Htm as <-. unfold Stop.
    destruct (tstate tm0) eqn:E; cbn; congruence.
  - intros user q g1 H. apply StartRound_frame in H.
    destruct H as (Hq & _ & _ & Hv & Ht & _). cbn in Hq, Hv, Ht.
    rewrite (AddNextVote_new g1 q user Hq) by (rewrite Hv; apply lookup_empty).
    by rewrite Hv, map_size_empty, insert_empty, Ht.
  - done.
  - intros user q g1 H. apply StartRound_frame in H.
    destruct H as (Hq & _ & _ & Hv & Ht & _). cbn in Hq, Hv, Ht.
    rewrite (AddNextVote_new g1 q user Hq) by (rewrite Hv; apply lookup_empty).
    by rewrite Hv, map_size_empty, insert_empty, Ht.
Qed.

Lemma ClearCurrentQuestion_clears_witness :
  QuestionTimer gameTimed = Some 0%nat /\
  timers gameTimed !! 0%nat = Some {| delay := 30 * Second; tstate := Pending |} /\
  timers (ClearCurrentQuestion gameTimed) !! 0%nat
  = Some {| delay := 30 * Second; tstate := Stopped |} /\
  tstate {| delay := 30 * Second; tstate := Stopped |} <> Pending.
Proof.
  split; [reflexivity|]. split; [reflexivity|]. split; [reflexivity|].
  destruct (ClearCurrentQuestion_clears gameTimed) as (_ & _ & _ & _ & Ht & _).
  apply (Ht 0%nat); reflexivity.
Defined.

(** ** Operating without an active question *)

(** C9. With no question active, [CheckAnswer] answers false to every
    submission, [GetHint] returns its no-active-question message with
    granted=false, and [AddNextVote] returns (0, 0, false) for every user;
    none of them panics and the state is left as it was. *)
Theorem no_active_question_is_denied (g : Game) :
  CurrentQuestion g = None ->
  (forall submission, CheckAnswer g submission = false) /\
  GetHint g = Ok (msgNoQuestion, false, g) /\
  msgNoQuestion = str "No question is currently active." /\
  (forall user, AddNextVote g user = (0, 0, false, g)).
Proof.
  intros Hq. unfold CheckAnswer, GetHint, AddNextVote. rewrite Hq. done.
Qed.

Lemma no_active_question_is_denied_witness :
  CurrentQuestion (gameWith None) = None /\
  CheckAnswer (gameWith None) (str "anything") = false /\
  GetHint (gameWith None) = Ok (msgNoQuestion, false, gameWith None) /\
  AddNextVote (gameWith None) (str "userX") = (0, 0, false, gameWith None).
Proof.
  destruct (no_active_question_is_denied (gameWith None) eq_refl)
    as (Hc & Hh & _ & Hv).
  split; [reflexivity|]. split; [apply Hc|]. split; [exact Hh|]. apply Hv.
Defined.

(** ** Skip votes *)

(** C4. With a question active: a user's second vote returns the tally of
    the first call, with skipNow=false, and changes nothing; a new vote that
    brings the tally to the threshold returns skipNow=true and only adds the
    vote, the question staying active; with threshold 2 and no votes yet,
    two users voting get (1,2,false) and then (2,2,true). *)
Theorem AddNextVote_one_vote_per_user (g : Game) (q : Question) :
  CurrentQuestion g = Some q ->
  (forall user,
      let '(n1, t1, _, g1) := AddNextVote g user in
      AddNextVote g1 user = (n1, t1, false, g1)) /\
  (forall user,
      nextVotes g !! user = None ->
      Z.of_nat (size (nextVotes g)) + 1 = NextVoteThreshold g ->
      AddNextVote g user
      = (NextVoteThreshold g, NextVoteThreshold g, true,
         with_nextVotes (<[user := true]> (nextVotes g)) g) /\
      CurrentQuestion (AddNextVote g user).2 = Some q) /\
  (forall user1 user2,
      nextVotes g = ∅ -> NextVoteThreshold g = 2 -> user1 <> user2 ->
      let '(r1, g1) := AddNextVote g user1 in
      let '(r2, g2) := AddNextVote g1 user2 in
      r1 = (1, 2, false) /\ r2 = (2, 2, true) /\
      CurrentQuestion g2 = Some q).
Proof.
  intros Hq. split; [|split].
  - intros user. destruct (nextVotes g !! user) as [b|] eqn:Hu.
    + rewrite (AddNextVote_duplicate g q user b Hq Hu).
      apply (AddNextVote_duplicate g q user b Hq Hu).
    + rewrite (AddNextVote_new g q user Hq Hu).
      rewrite (AddNextVote_duplicate _ q user true); cbn; [|done|].
      * rewrite map_size_insert_None by done. do 3 f_equal. lia.
      * apply lookup_insert_eq.
  - intros user Hu Hn. rewrite (AddNextVote_new g q user Hq Hu).
    rewrite Hn. split; [|done]. by rewrite Z.leb_refl.
  - intros user1 user2 Hv Ht Hne.
    rewrite (AddNextVote_new g q user1 Hq) by (by rewrite Hv).
    rewrite (AddNextVote_new _ q user2); cbn; [| done |].
    + rewrite Hv, Ht, insert_empty, map_size_singleton, map_size_empty. done.
    + rewrite Hv, lookup_insert_ne by done. done.
Qed.

Lemma AddNextVote_one_vote_per_user_witness :
  CurrentQuestion gameQuorum2 = Some qA /\
  nextVotes gameQuorum2 = ∅ /\
  NextVoteThreshold gameQuorum2 = 2 /\
  let '(r1, g1) := AddNextVote gameQuorum2 (str "user1") in
  let '(r2, g2) := AddNextVote g1 (str "user2") in
  r1 = (1, 2, false) /\ r2 = (2, 2, true) /\ CurrentQuestion g2 = Some qA.
Proof.
  split; [reflexivity|]. split; [reflexivity|]. split; [reflexivity|].
  destruct (AddNextVote_one_vote_per_user gameQuorum2 qA eq_refl)
    as (_ & _ & H).
  apply (H (str "user1") (str "user2")); [reflexivity|reflexivity|].
  vm_compute. discriminate.
Defined.

(** ** Hints *)

Lemma revealRandom_spec tries answer mask rnd mask' rnd' revealed :
  revealRandom tries answer mask rnd = Ok (mask', rnd', revealed) ->
  (revealed = false /\ mask' = mask) \/
  (revealed = true /\
   exists i a, mask !! i = Some underscore /\ answer !! i = Some a /\
               mask' = <[i := a]> mask).
Proof.
  revert rnd. induction tries as [|k IH]; intros rnd; cbn [revealRandom].
  - intros [= <- _ <-]. by left.
  - destruct (Intn _ rnd) as [[idx rnd1]|]; [cbn [bind]|done].
    destruct (mask !! Z.to_nat idx) as [c|] eqn:Ec; [|done].
    destruct (Z.eqb_spec c underscore) as [->|_]; [|apply IH].
    destruct (answer !! Z.to_nat idx) as [a|] eqn:Ea; [|done].
    intros [= <- _ <-]. right. split; [done|]. eauto.
Qed.

Lemma revealFirst_spec i rest answer mask mask' revealed :
  drop i mask = rest ->
  revealFirst i rest answer mask = Ok (mask', revealed) ->
  (revealed = false /\ mask' = mask) \/
  (revealed = true /\
   exists j a, mask !! j = Some underscore /\ answer !! j = Some a /\
               mask' = <[j := a]> mask).
Proof.
  revert i. induction rest as [|r rest' IH]; intros i Hd; cbn [revealFirst].
  - intros [= <- <-]. by left.
  - assert (mask !! i = Some r) as Hi.
    { rewrite <- (Nat.add_0_r i), <- lookup_drop, Hd. done. }
    destruct (Z.eqb_spec r underscore) as [->|_].
    + destruct (answer !! i) as [a|] eqn:Ea; [|done].
      intros [= <- <-]. right. split; [done|]. eauto.
    + apply IH. erewrite drop_S in Hd by done. congruence.
Qed.

(** Once the counter has reached [MaxHints], a call is refused and changes
    nothing. *)
Lemma GetHint_max g q :
  CurrentQuestion g = Some q -> MaxHints <= hintCount g ->
  GetHint g = Ok (msgMaxHints, false, g).
Proof.
  intros Hq Hc. unfold GetHint. rewrite Hq.
  by destruct (Z.leb_spec MaxHints (hintCount g)); [|lia].
Qed.

(** Below [MaxHints], a call that returns either revealed one hidden slot
    of the working mask and counted it, or revealed nothing and counted
    nothing. *)
Lemma GetHint_spec g q h granted g' :
  CurrentQuestion g = Some q -> hintCount g < MaxHints ->
  GetHint g = Ok (h, granted, g') ->
  CurrentQuestion g' = Some q /\
  ((granted = true /\ hintCount g' = hintCount g + 1 /\ h = hintMask g' /\
    exists i a, workingMask g q !! i = Some underscore /\
                strings.TrimSpace (Answer q) !! i = Some a /\
                hintMask g' = <[i := a]> (workingMask g q))
   \/ (granted = false /\ hintCount g' = hintCount g /\
       hintMask g' = workingMask g q /\ h = msgNoMoreChars)).
Proof.
  intros Hq Hc. unfold GetHint. rewrite Hq.
  destruct (Z.leb_spec MaxHints (hintCount g)); [lia|].
  cbn zeta. set (answer := strings.TrimSpace (Answer q)).
  set (g1 := if (length (hintMask g) =? 0)%nat then _ else g).
  assert (hintMask g1 = workingMask g q) as Hm.
  { unfold workingMask. subst g1. by destruct (length (hintMask g) =? 0)%nat. }
  assert (CurrentQuestion g1 = Some q /\ hintCount g1 = hintCount g) as [Hq1 Hc1].
  { subst g1. by destruct (length (hintMask g) =? 0)%nat. }
  rewrite Hm. clearbody g1.
  destruct (revealRandom 5 answer (workingMask g q) (rand g1))
    as [[[mask1 rnd1] rev1]|] eqn:Er; [cbn [bind]|done].
  apply revealRandom_spec in Er.
  destruct Er as [[-> ->]|[-> (i & a & Hi & Ha & ->)]]; cbn [revealFallback].
  - destruct (revealFirst 0 (workingMask g q) answer (workingMask g q))
      as [[mask2 rev2]|] eqn:Ef; [cbn [bind]|done].
    apply revealFirst_spec in Ef; [|done].
    destruct Ef as [[-> ->]|[-> (i & a & Hi & Ha & ->)]].
    + intros [= <- <- <-]. cbn. split; [done|]. right. by rewrite Hc1.
    + intros [= <- <- <-]. cbn. split; [done|]. left. rewrite Hc1. eauto 10.
  - cbn [bind]. intros [= <- <- <-]. cbn. split; [done|]. left.
    rewrite Hc1. eauto 10.
Qed.

Lemma GetHint_granted_bound n : forall g q,
  CurrentQuestion g = Some q ->
  grantedCount (hintCalls n g) <= Z.max 0 (MaxHints - hintCount g).
Proof.
  unfold grantedCount. induction n as [|n IH]; intros g q Hq; cbn [hintCalls].
  - cbn. lia.
  - destruct (Z.le_gt_cases MaxHints (hintCount g)) as [Hc|Hc].
    + rewrite (GetHint_max g q Hq Hc).
      rewrite filter_cons_False by (cbn; congruence). by apply (IH g q).
    + destruct (GetHint g) as [[[h granted] g']|] eqn:Eg; [|cbn; lia].
      destruct (GetHint_spec g q h granted g' Hq Hc Eg)
        as (Hq' & [(-> & Hc' & _)|(-> & Hc' & _)]).
      * rewrite filter_cons_True by done. cbn [length].
        specialize (IH g' q Hq'). lia.
      * rewrite filter_cons_False by (cbn; congruence).
        specialize (IH g' q Hq'). lia.
Qed.

(** [GetHint] returns, rather than panics, whenever the trimmed answer is
    not empty and the mask, if there is one, was built for this answer. *)
Lemma revealRandom_total tries answer mask : forall rnd,
  answer <> [] -> length mask = length answer ->
  exists r, revealRandom tries answer mask rnd = Ok r.
Proof.
  intros rnd Ha Hl. revert rnd.
  induction tries as [|k IH]; intros rnd; cbn [revealRandom]; [by eauto|].
  assert (0 < Z.of_nat (length answer)) as Hpos
    by (destruct answer; [done|cbn [length]; lia]).
  rewrite Intn_ok by done. cbn [bind].
  set (i := Z.to_nat _).
  assert (i < length answer)%nat as Hi.
  { subst i. pose proof (Z.mod_pos_bound (rnd 0%nat) _ Hpos). lia. }
  destruct (lookup_lt_is_Some_2 mask i) as [c ->]; [lia|].
  destruct (lookup_lt_is_Some_2 answer i) as [a ->]; [lia|].
  destruct (c =? underscore); [by eauto|apply IH].
Qed.

Lemma revealFirst_total rest answer mask : forall i,
  (i + length rest <= length answer)%nat ->
  exists r, revealFirst i rest answer mask = Ok r.
Proof.
  induction rest as [|r rest' IH]; intros i Hl; cbn [revealFirst]; [by eauto|].
  cbn [length] in Hl. destruct (r =? underscore).
  - destruct (lookup_lt_is_Some_2 answer i) as [a ->]; [lia|]. by eauto.
  - apply IH. lia.
Qed.

Lemma GetHint_total g q :
  CurrentQuestion g = Some q ->
  strings.TrimSpace (Answer q) <> [] ->
  length (workingMask g q) = length (strings.TrimSpace (Answer q)) ->
  exists r, GetHint g = Ok r.
Proof.
  intros Hq Ha Hl. unfold GetHint. rewrite Hq.
  destruct (MaxHints <=? hintCount g); [by eauto|].
  cbn zeta. set (answer := strings.TrimSpace (Answer q)) in *.
  set (g1 := if (length (hintMask g) =? 0)%nat then _ else g).
  assert (hintMask g1 = workingMask g q) as ->.
  { unfold workingMask. subst g1. by destruct (length (hintMask g) =? 0)%nat. }
  destruct (revealRandom_total 5 answer (workingMask g q) (rand g1) Ha Hl)
    as ([[mask1 rnd1] rev1] & Er).
  rewrite Er. cbn [bind].
  pose proof (revealRandom_spec _ _ _ _ _ _ _ Er) as Hs.
  destruct rev1; cbn [revealFallback bind]; [by eauto|].
  destruct Hs as [[_ ->]|[? _]]; [|done].
  destruct (revealFirst_total (workingMask g q) answer (workingMask g q) 0%nat)
    as ([mask2 rev2] & ->); [cbn; lia|].
  cbn [bind]. destruct rev2; by eauto.
Qed.

(** X23. For one active question: however many times [GetHint] is called,
    at most [MaxHints] = 3 calls grant a hint; a call that returns raises the
    counter by one exactly when it grants, which it does by writing the
    answer's rune into a slot of the mask that held ['_'], and leaves it
    alone otherwise; and once the counter has reached [MaxHints] every call
    returns the maximum-hints message with granted=false and the state
    unchanged. *)
Theorem GetHint_at_most_MaxHints (g : Game) (q : Question) :
  CurrentQuestion g = Some q ->
  0 <= hintCount g ->
  MaxHints = 3 /\
  (forall n, grantedCount (hintCalls n g) <= MaxHints) /\
  (forall h granted g',
      GetHint g = Ok (h, granted, g') ->
      (granted = true /\ hintCount g' = hintCount g + 1 /\
       exists i a, workingMask g q !! i = Some underscore /\
                   strings.TrimSpace (Answer q) !! i = Some a /\
                   hintMask g' = <[i := a]> (workingMask g q))
      \/ (granted = false /\ hintCount g' = hintCount g)) /\
  (MaxHints <= hintCount g ->
   GetHint g = Ok (msgMaxHints, false, g) /\
   msgMaxHints = str "Maximum hints (3) reached for this question.").
Proof.
  intros Hq Hc. split; [done|]. split; [|split].
  - intros n. pose proof (GetHint_granted_bound n g q Hq) as Hb.
    unfold MaxHints in *. lia.
  - intros h granted g' Hg.
    destruct (Z.le_gt_cases MaxHints (hintCount g)) as [Hm|Hm].
    + rewrite (GetHint_max g q Hq Hm) in Hg. injection Hg as <- <- <-.
      by right.
    + destruct (GetHint_spec g q h granted g' Hq Hm Hg)
        as (_ & [(-> & Hc' & _ & Hr)|(-> & Hc' & _)]); [left|right]; done.
  - intros Hm. split; [by apply (GetHint_max g q)|]. by vm_compute.
Qed.

Lemma GetHint_at_most_MaxHints_witness :
  CurrentQuestion gameParis = Some qParis /\
  0 <= hintCount gameParis /\
  grantedCount (hintCalls 6 gameParis) <= MaxHints /\
  grantedCount (hintCalls 6 gameParis) = 3.
Proof.
  split; [reflexivity|]. split; [vm_compute; discriminate|].
  split; [|vm_compute; reflexivity].
  apply (GetHint_at_most_MaxHints gameParis qParis);
    [reflexivity | vm_compute; discriminate].
Defined.

(** ** The buffer and the source *)

Lemma fillLoop_allYield qs : forall buf,
  allYield qs ->
  allYield (fillLoop qs buf).1 /\
  (fillLoop qs buf).2 ++ sourceQuestions (fillLoop qs buf).1
  = buf ++ sourceQuestions qs /\
  ((fillLoop qs buf).2 = [] -> sourceQuestions (fillLoop qs buf).1 = []).
Proof.
  induction qs as [|r rest IH]; intros buf Hy; cbn [fillLoop].
  - destruct (length buf <? 3)%nat; cbn; by rewrite ?app_nil_r.
  - destruct (length buf <? 3)%nat eqn:El.
    + apply Forall_cons in Hy as [Hr Hrest]. destruct r as [q|]; [|done].
      destruct (IH (buf ++ [q]) Hrest) as (H1 & H2 & H3).
      split; [done|]. split; [|done].
      rewrite H2, <- app_assoc. done.
    + cbn. split; [done|]. split; [done|].
      intros ->. apply Nat.ltb_ge in El. cbn in El. lia.
Qed.

Lemma fillLoop_buffer_grows qs : forall buf,
  (length buf <= length (fillLoop qs buf).2)%nat.
Proof.
  induction qs as [|r rest IH]; intros buf; cbn [fillLoop].
  - by destruct (length buf <? 3)%nat.
  - destruct (length buf <? 3)%nat; [|done].
    destruct r as [q|]; [|done].
    specialize (IH (buf ++ [q])). rewrite length_app in IH. cbn in IH. lia.
Qed.

Lemma fillQuestionBufferUnlocked_pool g :
  allYield (questionSource g) ->
  allYield (questionSource (fillQuestionBufferUnlocked g)) /\
  pool (fillQuestionBufferUnlocked g) = pool g /\
  (questionBuffer (fillQuestionBufferUnlocked g) = [] -> pool g = []).
Proof.
  intros Hy. unfold pool, fillQuestionBufferUnlocked.
  destruct (fillLoop_allYield (questionSource g) (questionBuffer g) Hy)
    as (H1 & H2 & H3).
  destruct (fillLoop (questionSource g) (questionBuffer g)) as [qs buf].
  cbn in *. split; [done|]. split; [done|].
  intros ->. rewrite <- H2. by rewrite H3.
Qed.

Lemma runFill_pool g :
  allYield (questionSource g) ->
  allYield (questionSource (runFill g)) /\ pool (runFill g) = pool g.
Proof.
  intros Hy. unfold runFill. destruct (pendingFills g); [done|].
  destruct (fillQuestionBufferUnlocked_pool g Hy) as (H1 & H2 & _).
  done.
Qed.

(** With a source that never fails, [StartRound] returns none only when
    nothing is left, and otherwise takes one question out of the pool. *)
Lemma StartRound_pool g :
  allYield (questionSource g) ->
  (pool g = [] /\ exists g', StartRound g = Ok (None, g') /\ pool g' = [] /\
                             allYield (questionSource g'))
  \/ (exists q g', StartRound g = Ok (Some q, g') /\ pool g ≡ₚ q :: pool g' /\
                   allYield (questionSource g')).
Proof.
  intros Hy.
  assert (allYield (questionSource (refilled g)) /\
          pool (refilled g) = pool g /\
          (questionBuffer (refilled g) = [] -> pool g = [])) as (Hy1 & Hp & He).
  { unfold refilled. destruct (questionBuffer g) as [|q0 buf] eqn:Eb.
    - cbn. by apply fillQuestionBufferUnlocked_pool.
    - cbn. rewrite Eb. done. }
  destruct (StartRound_cases g) as [[Hb ->]|(i & q & Hi & ->)].
  - left. split; [by apply He|]. exists (refilled g).
    split; [done|]. split; [|done]. rewrite Hp. by apply He.
  - right. exists q, (taken i q (refilled g)). split; [done|].
    split; [|done]. rewrite <- Hp. unfold pool. cbn.
    rewrite <- (take_drop_middle _ _ _ Hi) at 1.
    rewrite <- !app_assoc. cbn. by rewrite <- Permutation_middle.
Qed.

Lemma rounds_pool sched : forall g,
  allYield (questionSource g) ->
  exists served rest m,
    rounds sched g = Ok ((Some <$> served) ++ replicate m None) /\
    served ++ rest ≡ₚ pool g /\
    (0 < m -> rest = [])%nat /\
    (length served + m = calls sched)%nat.
Proof.
  unfold calls.
  induction sched as [|a sched IH]; intros g Hy; cbn [rounds].
  - exists [], (pool g), 0%nat. cbn. split; [done|]. split; [done|].
    split; [lia|done].
  - destruct a.
    + rewrite filter_cons_True by done. cbn [length].
      destruct (StartRound_pool g Hy)
        as [(Hp & g' & -> & Hp' & Hy')|(q & g' & -> & Hp & Hy')]; cbn [bind].
      * destruct (IH g' Hy') as (served & rest & m & -> & Hperm & Hm & Hlen).
        rewrite Hp' in Hperm. apply Permutation_nil_r in Hperm.
        apply app_eq_nil in Hperm as [-> ->]. cbn [bind].
        exists [], [], (S m). cbn. cbn in Hlen. rewrite Hp.
        split; [done|]. split; [done|]. split; [done|lia].
      * destruct (IH g' Hy') as (served & rest & m & -> & Hperm & Hm & Hlen).
        cbn [bind]. exists (q :: served), rest, m. cbn.
        split; [done|]. split; [by rewrite Hp, <- Hperm|]. split; [done|lia].
    + rewrite filter_cons_False by done.
      destruct (runFill_pool g Hy) as [Hy' Hp].
      destruct (IH (runFill g) Hy') as (served & rest & m & -> & Hperm & Hm & Hlen).
      exists served, rest, m. by rewrite <- Hp.
Qed.

Lemma NewGame_pool qs channel seed :
  allYield qs ->
  allYield (questionSource (NewGame qs channel seed)) /\
  pool (NewGame qs channel seed) = sourceQuestions qs.
Proof.
  intros Hy. unfold NewGame, fillQuestionBuffer.
  match goal with
  | |- context [fillQuestionBufferUnlocked ?g0] =>
      destruct (fillQuestionBufferUnlocked_pool g0 Hy) as (H1 & H2 & _)
  end.
  split; [done|]. by rewrite H2.
Qed.

(** C5. A source of exactly four questions A, B, C, D behind the buffer of
    three: whenever the refill goroutines get to run, the first four calls of
    [StartRound] return four pairwise distinct questions, each one of A..D,
    and the fifth returns none.  A call that finds the buffer empty refills
    it from the source before it decides, and returns none only if the buffer
    is still empty then. *)
Theorem StartRound_serves_each_question_once
    (A B C D : Question) (channel : list Z) (seed : nat -> Z)
    (sched : list Action) :
  NoDup [A; B; C; D] ->
  calls sched = 5%nat ->
  (exists q1 q2 q3 q4,
      rounds sched (NewGame [Yield A; Yield B; Yield C; Yield D] channel seed)
      = Ok [Some q1; Some q2; Some q3; Some q4; None] /\
      NoDup [q1; q2; q3; q4] /\
      (forall q, q ∈ [q1; q2; q3; q4] -> q ∈ [A; B; C; D])) /\
  (forall g,
      questionBuffer g = [] ->
      (questionBuffer (fillQuestionBufferUnlocked g) = [] /\
       StartRound g = Ok (None, fillQuestionBufferUnlocked g))
      \/ (exists i q,
            questionBuffer (fillQuestionBufferUnlocked g) !! i = Some q /\
            StartRound g = Ok (Some q, taken i q (fillQuestionBufferUnlocked g)))) /\
  (forall g q rest,
      questionBuffer g = [] -> questionSource g = Yield q :: rest ->
      exists q' g', StartRound g = Ok (Some q', g')).
Proof.
  intros Hnd Hcalls. split; [|split].
  - assert (allYield [Yield A; Yield B; Yield C; Yield D]) as Hy
      by (repeat constructor; done).
    destruct (NewGame_pool _ channel seed Hy) as [Hy0 Hp0].
    destruct (rounds_pool sched _ Hy0)
      as (served & rest & m & -> & Hperm & Hm & Hlen).
    rewrite Hp0 in Hperm. cbn in Hperm. rewrite Hcalls in Hlen.
    pose proof (Permutation_length Hperm) as HL.
    rewrite length_app in HL. cbn in HL.
    assert (rest = []) as -> by (apply Hm; lia).
    rewrite app_nil_r in Hperm. cbn in HL.
    destruct served as [|q1 [|q2 [|q3 [|q4 [|q5 served]]]]]; cbn in HL; try lia.
    assert (m = 1%nat) as -> by (cbn in Hlen; lia).
    exists q1, q2, q3, q4. split; [done|]. split.
    + by rewrite Hperm.
    + intros q Hq. by rewrite <- Hperm.
  - intros g Hb. pose proof (StartRound_cases g) as H.
    unfold refilled in H. rewrite Hb in H. exact H.
  - intros g q rest Hb Hs. pose proof (StartRound_cases g) as H.
    unfold refilled in H. rewrite Hb in H. cbn in H.
    destruct H as [[He _]|(i & q' & _ & ->)]; [|eauto].
    unfold fillQuestionBufferUnlocked in He. rewrite Hs, Hb in He.
    cbn in He. pose proof (fillLoop_buffer_grows rest [q]) as Hg.
    destruct (fillLoop rest [q]) as [qs buf]. cbn in He, Hg.
    subst buf. cbn in Hg. lia.
Qed.

Lemma StartRound_serves_each_question_once_witness :
  NoDup [qA; qB; qC; qD] /\
  calls schedule0 = 5%nat /\
  exists q1 q2 q3 q4,
    rounds schedule0
      (NewGame [Yield qA; Yield qB; Yield qC; Yield qD] channel0 seed0)
    = Ok [Some q1; Some q2; Some q3; Some q4; None] /\
    NoDup [q1; q2; q3; q4] /\
    (forall q, q ∈ [q1; q2; q3; q4] -> q ∈ [qA; qB; qC; qD]).
Proof.
  assert (NoDup [qA; qB; qC; qD]) as Hnd.
  { apply (bool_decide_unpack _). vm_compute. exact I. }
  split; [exact Hnd|]. split; [reflexivity|].
  apply (StartRound_serves_each_question_once qA qB qC qD channel0 seed0
           schedule0 Hnd eq_refl).
Defined.

(** ** The continuous-play loop *)

Lemma askQuestion_none c g g1 :
  StartRound g = Ok (None, g1) ->
  askQuestion c g
  = Ok (Privmsg c (GameChannel g1) msgNoMoreQuestions, SetPlaying false g1).
Proof. intros H. unfold askQuestion. by rewrite H. Qed.

Lemma askQuestion_some c g q g1 :
  StartRound g = Ok (Some q, g1) ->
  askQuestion c g
  = Ok (Privmsg c (GameChannel g1) (msgQuestion q),
        with_QuestionTimer (Some (length (timers g1)))
          (with_timers
             (timers g1 ++ [{| delay := 30 * Second; tstate := Pending |}]) g1)).
Proof. intros H. unfold askQuestion. by rewrite H. Qed.

Lemma askQuestion_total c g : exists c' g', askQuestion c g = Ok (c', g').
Proof.
  destruct (StartRound_total g) as ([q|] & g1 & H).
  - rewrite (askQuestion_some c g q g1 H). eauto.
  - rewrite (askQuestion_none c g g1 H). eauto.
Qed.

(** With continuous play off the loop neither touches the game nor sends
    anything, whatever it receives. *)
Lemma gameLoop_inert evs : forall l,
  GetPlaying (game l) = false ->
  exists l',
    (gameLoop evs l = Ok (Continue l') \/ gameLoop evs l = Ok (Return l')) /\
    game l' = game l /\ client l' = client l.
Proof.
  induction evs as [|ev evs IH]; intros l Hp; cbn [gameLoop].
  - exists l. auto.
  - destruct ev as [|answered|]; cbn [gameLoop_select].
    + destruct (nextQuestionTimer l) as [d|]; cbn [game client].
      * rewrite Hp. cbn [bind].
        match goal with |- context [gameLoop evs ?l0] =>
          destruct (IH l0 Hp) as (l' & H & Hg & Hc) end.
        exists l'. done.
      * cbn [bind]. by apply IH.
    + rewrite Hp. cbn [bind]. by apply IH.
    + cbn [bind]. eexists. split; [right; reflexivity|]. done.
Qed.

(** X24. A source at its end makes [StartRound] return none, without a
    panic.  When the loop's timer fires in continuous play and [StartRound]
    returns none, the loop goes on with continuous play switched off: no
    round is started (the active question, if any, and the timers stay as
    they were, so an idle engine stays idle), the one message sent is the
    no-more-questions notice, and as long as nobody else changes the game,
    whatever the loop receives afterwards it asks nothing and leaves the
    game alone. *)
Theorem gameLoop_exhaustion :
  (forall g, questionBuffer g = [] -> questionSource g = [] ->
             StartRound g = Ok (None, g)) /\
  (forall (l : Loop) (d : Z) (g1 : Game),
      nextQuestionTimer l = Some d ->
      GetPlaying (game l) = true ->
      StartRound (game l) = Ok (None, g1) ->
      exists l',
        gameLoop_select TimerC l = Ok (Continue l') /\
        GetPlaying (game l') = false /\
        GetCurrentQuestion (game l') = GetCurrentQuestion (game l) /\
        (GetCurrentQuestion (game l) = None -> GetCurrentQuestion (game l') = None) /\
        QuestionTimer (game l') = QuestionTimer (game l) /\
        timers (game l') = timers (game l) /\
        outbox (client l')
        = outbox (client l) ++ [(GameChannel (game l), msgNoMoreQuestions)] /\
        (forall evs, exists l'',
            (gameLoop evs l' = Ok (Continue l'') \/
             gameLoop evs l' = Ok (Return l'')) /\
            game l'' = game l' /\ client l'' = client l')).
Proof.
  split.
  - intros g Hb Hs. destruct (StartRound_cases g) as [[_ ->]|(i & q & Hi & _)].
    + f_equal. f_equal. unfold refilled, fillQuestionBufferUnlocked.
      rewrite Hb, Hs. cbn. destruct g; cbn in *. by subst.
    + exfalso. unfold refilled, fillQuestionBufferUnlocked in Hi.
      rewrite Hb, Hs in Hi. cbn in Hi. done.
  - intros l d g1 Ht Hp Hs. cbn [gameLoop_select]. rewrite Ht. cbn [game client].
    rewrite Hp, (askQuestion_none _ _ g1 Hs). cbn [bind].
    eexists. split; [reflexivity|]. cbn.
    apply StartRound_frame in Hs as (Hq & _ & _ & _ & _ & _ & Hch & Hqt & Htm).
    unfold GetCurrentQuestion. rewrite Hq, Hch, Hqt, Htm.
    repeat (split; [done|]).
    intros evs. by apply gameLoop_inert.
Qed.

Lemma gameLoop_exhaustion_witness :
  nextQuestionTimer loopExhausted = Some nextQuestionDelay /\
  GetPlaying (game loopExhausted) = true /\
  StartRound (game loopExhausted) = Ok (None, game loopExhausted) /\
  exists l',
    gameLoop_select TimerC loopExhausted = Ok (Continue l') /\
    GetPlaying (game l') = false /\
    GetCurrentQuestion (game l') = None /\
    outbox (client l') = [(channel0, msgNoMoreQuestions)] /\
    forall evs, exists l'',
      (gameLoop evs l' = Ok (Continue l'') \/ gameLoop evs l' = Ok (Return l''))
      /\ game l'' = game l' /\ client l'' = client l'.
Proof.
  assert (StartRound (game loopExhausted) = Ok (None, game loopExhausted)) as Hs
    by (apply (proj1 gameLoop_exhaustion); reflexivity).
  split; [reflexivity|]. split; [reflexivity|]. split; [exact Hs|].
  destruct (proj2 gameLoop_exhaustion loopExhausted nextQuestionDelay
              (game loopExhausted) eq_refl eq_refl Hs)
    as (l' & H1 & H2 & H3 & _ & _ & _ & H4 & H5).
  exists l'. split; [exact H1|]. split; [exact H2|].
  split; [exact H3|]. split; [exact H4|]. exact H5.
Defined.

(** C7, as the code has it.  A round-ended event received while continuous
    play is on re-arms the timer for 5 seconds, whether it reports an answer
    or a timeout or skip; received while continuous play is off it leaves the
    timer as it is.  A timer firing while continuous play is on runs
    [askQuestion], which starts a round and sends the question whenever
    [StartRound] returns one, and then re-arms the timer for 45 seconds. *)
Theorem gameLoop_pacing (l : Loop) :
  (forall answered,
      GetPlaying (game l) = true ->
      gameLoop_select (AnswerGivenRecv answered) l
      = Ok (Continue {| client := client l; game := game l;
                        nextQuestionTimer := Some (5 * Second) |})) /\
  (forall answered,
      GetPlaying (game l) = false ->
      gameLoop_select (AnswerGivenRecv answered) l = Ok (Continue l)) /\
  (forall d,
      nextQuestionTimer l = Some d ->
      GetPlaying (game l) = true ->
      exists c g,
        askQuestion (client l) (game l) = Ok (c, g) /\
        gameLoop_select TimerC l
        = Ok (Continue {| client := c; game := g;
                          nextQuestionTimer := Some (45 * Second) |}) /\
        (forall q g1,
            StartRound (game l) = Ok (Some q, g1) ->
            GetCurrentQuestion g = Some q /\
            outbox c = outbox (client l) ++ [(GameChannel (game l), msgQuestion q)])).
Proof.
  split; [|split].
  - intros answered Hp. cbn [gameLoop_select]. rewrite Hp. by destruct answered.
  - intros answered Hp. cbn [gameLoop_select]. by rewrite Hp.
  - intros d Ht Hp. destruct (askQuestion_total (client l) (game l)) as (c & g & Ha).
    exists c, g. split; [done|]. split.
    + cbn [gameLoop_select]. rewrite Ht. cbn [game client]. by rewrite Hp, Ha.
    + intros q g1 Hs. rewrite (askQuestion_some _ _ q g1 Hs) in Ha.
      injection Ha as <- <-. cbn.
      apply StartRound_frame in Hs as (Hq & _ & _ & _ & _ & _ & Hch & _).
      unfold GetCurrentQuestion. by rewrite Hq, Hch.
Qed.

Lemma gameLoop_pacing_witness :
  GetPlaying (game loopPlaying) = true /\
  nextQuestionTimer loopPlaying = Some nextQuestionDelay /\
  gameLoop_select (AnswerGivenRecv false) loopPlaying
  = Ok (Continue {| client := client loopPlaying; game := game loopPlaying;
                    nextQuestionTimer := Some (5 * Second) |}) /\
  exists c g,
    askQuestion (client loopPlaying) (game loopPlaying) = Ok (c, g) /\
    gameLoop_select TimerC loopPlaying
    = Ok (Continue {| client := c; game := g;
                      nextQuestionTimer := Some (45 * Second) |}).
Proof.
  destruct (gameLoop_pacing loopPlaying) as (H1 & _ & H3).
  split; [reflexivity|]. split; [reflexivity|].
  split; [exact (H1 false eq_refl)|].
  destruct (H3 nextQuestionDelay eq_refl eq_refl) as (c & g & Ha & Hs & _).
  exists c, g. split; [exact Ha|exact Hs].
Defined.

(** C7 as stated fails: a round-ended event received while continuous play
    is off does not arm the timer. *)
Lemma gameLoop_event_not_playing_counterexample :
  GetPlaying (game loopIdle) = false /\
  nextQuestionTimer loopIdle = None /\
  gameLoop_select (AnswerGivenRecv true) loopIdle = Ok (Continue loopIdle) /\
  gameLoop_select (AnswerGivenRecv false) loopIdle = Ok (Continue loopIdle).
Proof. repeat split. Qed.

(** ** Reachable states *)

(** While no question is active the hint state is fresh, and the hint
    counter is never negative. *)
Lemma GetHint_frame g h granted g' :
  GetHint g = Ok (h, granted, g') ->
  CurrentQuestion g' = CurrentQuestion g /\
  hintCount g <= hintCount g' /\
  (CurrentQuestion g = None -> g' = g).
Proof.
  intros H. destruct (CurrentQuestion g) as [q|] eqn:Hq.
  - destruct (Z.le_gt_cases MaxHints (hintCount g)) as [Hc|Hc].
    + rewrite (GetHint_max g q Hq Hc) in H. injection H as <- <- <-.
      rewrite Hq. split; [done|]. split; [lia|done].
    + destruct (GetHint_spec g q h granted g' Hq Hc H)
        as (Hq' & [(_ & Hc' & _)|(_ & Hc' & _)]);
        (split; [done|]); (split; [lia|done]).
  - unfold GetHint in H. rewrite Hq in H. injection H as <- <- <-.
    rewrite Hq. split; [done|]. split; [lia|done].
Qed.

Lemma AddNextVote_frame g user :
  CurrentQuestion (AddNextVote g user).2 = CurrentQuestion g /\
  hintCount (AddNextVote g user).2 = hintCount g /\
  (CurrentQuestion g = None -> (AddNextVote g user).2 = g).
Proof.
  unfold AddNextVote. destruct (CurrentQuestion g) as [q|] eqn:Hq; [|done].
  destruct (nextVotes g !! user); [done|].
  cbn. by destruct (_ <=? _).
Qed.

Lemma reachable_invariant g :
  reachable g ->
  0 <= hintCount g /\ (CurrentQuestion g = None -> hintStateFresh g).
Proof.
  unfold hintStateFresh.
  induction 1 as [qs channel seed | g r g' _ IH Hs | g h granted g' _ IH Hg
                 | g user _ IH | g _ IH | b g _ IH | g _ IH
                 | c g c' g' _ IH Ha].
  - unfold NewGame, fillQuestionBuffer.
    match goal with |- context [fillQuestionBufferUnlocked ?g0] =>
      destruct (fillQuestionBufferUnlocked_frame g0)
        as (_ & -> & -> & -> & _) end.
    done.
  - apply StartRound_frame in Hs as (Hq & -> & -> & -> & _).
    split; [tauto|]. rewrite Hq. destruct r; [done|tauto].
  - destruct (GetHint_frame g h granted g' Hg) as (Hq & Hc & Hn).
    split; [lia|]. rewrite Hq. intros Hnone. rewrite (Hn Hnone). tauto.
  - destruct (AddNextVote_frame g user) as (Hq & Hc & Hn).
    rewrite Hc. split; [tauto|]. rewrite Hq. intros Hnone.
    rewrite (Hn Hnone). tauto.
  - unfold ClearCurrentQuestion. cbn. by destruct (QuestionTimer g).
  - done.
  - unfold runFill, fillQuestionBuffer. destruct (pendingFills g); [done|].
    cbn. destruct (fillQuestionBufferUnlocked_frame g) as (-> & -> & -> & -> & _).
    done.
  - destruct (StartRound_total g) as ([q|] & g1 & Hs).
    + rewrite (askQuestion_some c g q g1 Hs) in Ha. injection Ha as <- <-.
      apply StartRound_frame in Hs as (Hq & Hc & _). cbn.
      rewrite Hq, Hc. split; [tauto|done].
    + rewrite (askQuestion_none c g g1 Hs) in Ha. injection Ha as <- <-.
      apply StartRound_frame in Hs as (Hq & Hc & Hm & Hv & _). cbn.
      by rewrite Hq, Hc, Hm, Hv.
Qed.

(** From the idle state the hint state of the new round is fresh: what
    [StartRound] leaves in place is what the last clear left. *)
Lemma StartRound_from_idle_fresh g q g' :
  reachable g -> CurrentQuestion g = None ->
  StartRound g = Ok (Some q, g') ->
  GetCurrentQuestion g' = Some q /\ hintStateFresh g'.
Proof.
  intros Hr Hn Hs. destruct (reachable_invariant g Hr) as [_ Hf].
  destruct (Hf Hn) as (Hc & Hm & Hv).
  apply StartRound_frame in Hs as (Hq & Hc' & Hm' & Hv' & _).
  unfold hintStateFresh, GetCurrentQuestion. by rewrite Hq, Hc', Hm', Hv'.
Qed.

(** * Further properties of the code *)

Set Warnings "-clear-no-such-hyp".

(** ** Normalization, again *)

Lemma ToLower_alphanum_fixed r :
  isAlphaNum (unicode.ToLower r) = true ->
  unicode.ToLower (unicode.ToLower r) = unicode.ToLower r /\
  isUpper (unicode.ToLower r) = false.
Proof.
  unfold isAlphaNum, isUpper, unicode.ToLower, between.
  repeat match goal with
         | |- context [if ?b then _ else _] => destruct b eqn:?
         end; bool_to_Z; intros; split; try lia;
    apply Bool.not_true_iff_false; bool_to_Z; lia.
Qed.

(** X1. [normalizeAnswer] is idempotent, and what it returns holds nothing
    but the lower-case letters [a]..[z] and the digits [0]..[9]. *)
Theorem normalizeAnswer_idempotent (s : list Z) :
  normalizeAnswer (normalizeAnswer s) = normalizeAnswer s /\
  Forall (fun r => between 97 122 r || between 48 57 r = true) (normalizeAnswer s).
Proof.
  rewrite (normalizeAnswer_filter (normalizeAnswer s)), normalizeAnswer_filter.
  induction s as [|r t [IH1 IH2]]; [done|].
  rewrite fmap_cons. destruct (isAlphaNum (unicode.ToLower r)) eqn:E.
  - destruct (ToLower_alphanum_fixed r E) as [Hf Hu].
    rewrite filter_cons_True by done. rewrite fmap_cons, Hf.
    rewrite filter_cons_True by done. split; [by rewrite IH1|].
    constructor; [|done].
    unfold isAlphaNum in E. fold (isUpper (unicode.ToLower r)) in E.
    rewrite Hu in E. by destruct (between 97 122 _), (between 48 57 _).
  - rewrite filter_cons_False by congruence. done.
Qed.

(** ** The buffer, for any source *)

Lemma fillLoop_general qs : forall buf,
  (fillLoop qs buf).2 ++ sourceQuestions (fillLoop qs buf).1
  = buf ++ sourceQuestions qs /\
  buf `prefix_of` (fillLoop qs buf).2 /\
  (length (fillLoop qs buf).2 <= 3 `max` length buf)%nat /\
  ((length (fillLoop qs buf).2 < 3)%nat ->
   (fillLoop qs buf).1 = [] \/
   exists pre, qs = pre ++ Fail :: (fillLoop qs buf).1 /\ allYield pre).
Proof.
  induction qs as [|r rest IH]; intros buf; cbn [fillLoop].
  - destruct (length buf <? 3)%nat; cbn; rewrite ?app_nil_r;
      (split; [done|]); (split; [done|]); (split; [lia|auto]).
  - destruct (Nat.ltb_spec (length buf) 3) as [Hl|Hl].
    + destruct r as [q|].
      * destruct (IH (buf ++ [q])) as (H1 & H2 & H3 & H4).
        rewrite length_app in H3. cbn in H3.
        split; [by rewrite H1, <- app_assoc|].
        split; [etrans; [by apply prefix_app_r|done]|].
        split; [lia|].
        intros Hlt. destruct (H4 Hlt) as [Hnil|(pre & Hpre & Hy)]; [by left|].
        right. exists (Yield q :: pre). split; [cbn; by f_equal|].
        by constructor.
      * cbn. split; [done|]. split; [done|]. split; [lia|].
        intros _. right. exists []. split; [done|]. constructor.
    + cbn. split; [done|]. split; [done|]. split; [lia|]. lia.
Qed.

(** X2. Refilling loses and reorders nothing: the buffered questions keep
    their places at the front, and buffer followed by the questions still in
    the source is the same list before and after.  The buffer is filled to
    at most three (or left at its size if larger), and ends short of three
    only when the source is at its end or the refill stopped at a failing
    [Next], whose result is used up. *)
Theorem fillQuestionBufferUnlocked_keeps_order (g : Game) :
  pool (fillQuestionBufferUnlocked g) = pool g /\
  questionBuffer g `prefix_of` questionBuffer (fillQuestionBufferUnlocked g) /\
  (length (questionBuffer (fillQuestionBufferUnlocked g))
   <= 3 `max` length (questionBuffer g))%nat /\
  ((length (questionBuffer (fillQuestionBufferUnlocked g)) < 3)%nat ->
   questionSource (fillQuestionBufferUnlocked g) = [] \/
   exists pre,
     questionSource g
     = pre ++ Fail :: questionSource (fillQuestionBufferUnlocked g) /\
     allYield pre).
Proof.
  unfold pool, fillQuestionBufferUnlocked.
  pose proof (fillLoop_general (questionSource g) (questionBuffer g)) as H.
  destruct (fillLoop (questionSource g) (questionBuffer g)) as [qs buf].
  exact H.
Qed.

Lemma fillLoop_take qs : forall buf,
  allYield qs -> (length buf <= 3)%nat ->
  (fillLoop qs buf).2 = take 3 (buf ++ sourceQuestions qs) /\
  sourceQuestions (fillLoop qs buf).1 = drop 3 (buf ++ sourceQuestions qs).
Proof.
  induction qs as [|r rest IH]; intros buf Hy Hl; cbn [fillLoop].
  - destruct (length buf <? 3)%nat; cbn; rewrite app_nil_r;
      by rewrite take_ge, drop_ge by lia.
  - destruct (Nat.ltb_spec (length buf) 3) as [Hlt|Hge].
    + apply Forall_cons in Hy as [Hr Hrest]. destruct r as [q|]; [|done].
      destruct (IH (buf ++ [q]) Hrest) as [H1 H2].
      { rewrite length_app. cbn. lia. }
      cbn [sourceQuestions omap list_omap]. rewrite H1, H2, <- app_assoc. done.
    + cbn [fst snd]. assert (length buf = 3%nat) as H3 by lia.
      by rewrite <- H3, take_app_length, drop_app_length.
Qed.

(** X3. With a source that does not fail, [NewGame] prefetches the first
    three questions of the source in their order (all of them if there are
    fewer) and leaves the rest in the source; the game starts idle, not
    playing, with the skip threshold 3. *)
Theorem NewGame_prefetches (qs : list NextResult) (channel : list Z) (seed : nat -> Z) :
  allYield qs ->
  questionBuffer (NewGame qs channel seed) = take 3 (sourceQuestions qs) /\
  sourceQuestions (questionSource (NewGame qs channel seed))
  = drop 3 (sourceQuestions qs) /\
  GetCurrentQuestion (NewGame qs channel seed) = None /\
  GetPlaying (NewGame qs channel seed) = false /\
  NextVoteThreshold (NewGame qs channel seed) = 3.
Proof.
  intros Hy. unfold NewGame, fillQuestionBuffer, fillQuestionBufferUnlocked.
  cbn [questionSource questionBuffer].
  destruct (fillLoop_take qs [] Hy) as [H1 H2]; [cbn; lia|].
  destruct (fillLoop qs []) as [qs' buf]. cbn in *. by rewrite H1, H2.
Qed.

Lemma NewGame_prefetches_witness :
  allYield [Yield qA; Yield qB; Yield qC; Yield qD] /\
  questionBuffer (NewGame [Yield qA; Yield qB; Yield qC; Yield qD] channel0 seed0)
  = [qA; qB; qC] /\
  sourceQuestions
    (questionSource (NewGame [Yield qA; Yield qB; Yield qC; Yield qD] channel0 seed0))
  = [qD].
Proof.
  assert (allYield [Yield qA; Yield qB; Yield qC; Yield qD]) as Hy
    by (repeat constructor; discriminate).
  split; [exact Hy|].
  destruct (NewGame_prefetches _ channel0 seed0 Hy) as (H1 & H2 & _).
  split; [exact H1|exact H2].
Defined.

Lemma refilled_pool g :
  pool (refilled g) = pool g /\
  (questionBuffer g <> [] -> refilled g = g).
Proof.
  unfold refilled. destruct (questionBuffer g) as [|q0 buf] eqn:Hb; cbn.
  - split; [|done]. unfold pool, fillQuestionBufferUnlocked.
    pose proof (fillLoop_general (questionSource g) (questionBuffer g)) as H.
    destruct (fillLoop (questionSource g) (questionBuffer g)) as [qs buf'].
    exact (proj1 H).
  - done.
Qed.

(** X4. [StartRound] never panics, whatever the source and the random
    draws.  When it returns a question, that question is now the current
    question; it came from the buffer (refilled first if it was empty), the
    buffer is one shorter, the game's pool of questions has lost exactly that
    question, and one refill goroutine has been started.  When it returns
    none, the current question is as before, the buffer is empty, no
    question is lost and no goroutine is started. *)
Theorem StartRound_takes_one (g : Game) :
  exists r g',
    StartRound g = Ok (r, g') /\
    match r with
    | Some q =>
        GetCurrentQuestion g' = Some q /\
        q ∈ questionBuffer (refilled g) /\
        S (length (questionBuffer g')) = length (questionBuffer (refilled g)) /\
        pool g ≡ₚ q :: pool g' /\
        pendingFills g' = S (pendingFills g)
    | None =>
        GetCurrentQuestion g' = GetCurrentQuestion g /\
        questionBuffer g' = [] /\ pool g' = pool g /\
        pendingFills g' = pendingFills g
    end.
Proof.
  destruct (refilled_pool g) as [Hp _].
  assert (pendingFills (refilled g) = pendingFills g) as Hf.
  { unfold refilled, fillQuestionBufferUnlocked.
    destruct (length (questionBuffer g) =? 0)%nat; [|done].
    by destruct (fillLoop _ _). }
  destruct (StartRound_cases g) as [[Hb Hs]|(i & q & Hi & Hs)];
    pose proof (StartRound_frame _ _ _ Hs) as (Hq & _); rewrite Hs.
  - exists None, (refilled g). split; [done|].
    unfold GetCurrentQuestion. by rewrite Hq, Hb, Hp, Hf.
  - exists (Some q), (taken i q (refilled g)). split; [done|].
    split; [exact Hq|].
    split; [by eapply list_elem_of_lookup_2|].
    pose proof (lookup_lt_Some _ _ _ Hi) as Hlt.
    split; [cbn; rewrite length_app, length_take, length_drop; lia|].
    split; [|by cbn; rewrite Hf].
    rewrite <- Hp. unfold pool. cbn.
    rewrite <- (take_drop_middle _ _ _ Hi) at 1.
    rewrite <- !app_assoc. cbn. by rewrite <- Permutation_middle.
Qed.

(** X5. An error of the source other than end-of-file is not kept against
    it: with an empty buffer and a source whose next [Next] fails,
    [StartRound] reports none although a question remains, and the following
    [StartRound] serves a question. *)
Theorem StartRound_after_failed_Next (g : Game) (q : Question) (rest : list NextResult) :
  questionBuffer g = [] ->
  questionSource g = Fail :: Yield q :: rest ->
  exists g1,
    StartRound g = Ok (None, g1) /\
    questionSource g1 = Yield q :: rest /\
    exists q' g2, StartRound g1 = Ok (Some q', g2).
Proof.
  intros Hb Hs.
  assert (refilled g = with_buffer (Yield q :: rest) [] g) as Hr.
  { unfold refilled, fillQuestionBufferUnlocked. by rewrite Hb, Hs. }
  exists (with_buffer (Yield q :: rest) [] g).
  destruct (StartRound_cases g) as [[_ ->]|(i & q' & Hi & _)].
  - rewrite Hr. split; [done|]. split; [done|].
    destruct (StartRound_cases (with_buffer (Yield q :: rest) [] g))
      as [[He _]|(i & q' & _ & ->)]; [|by eauto].
    exfalso. unfold refilled, fillQuestionBufferUnlocked in He. cbn in He.
    pose proof (fillLoop_buffer_grows rest [q]) as Hg.
    destruct (fillLoop rest [q]) as [qs buf]. cbn in He, Hg.
    subst buf. cbn in Hg. lia.
  - rewrite Hr in Hi. done.
Qed.

Lemma StartRound_after_failed_Next_witness :
  questionBuffer gameFlaky = [] /\
  questionSource gameFlaky = [Fail; Yield qParis] /\
  exists g1,
    StartRound gameFlaky = Ok (None, g1) /\
    questionSource g1 = [Yield qParis] /\
    exists q' g2, StartRound g1 = Ok (Some q', g2).
Proof.
  split; [reflexivity|]. split; [reflexivity|].
  apply (StartRound_after_failed_Next gameFlaky qParis []); reflexivity.
Defined.

(** ** Hint masks *)

Lemma initMask_agrees answer : maskAgrees (initMask answer) answer.
Proof.
  unfold maskAgrees, initMask. induction answer as [|a t IH]; [constructor|].
  rewrite fmap_cons. constructor; [|done].
  unfold slotAgrees. destruct (Z.eqb_spec a space) as [->|_]; auto.
Qed.

Lemma maskAgrees_reveal mask answer i a :
  maskAgrees mask answer -> answer !! i = Some a ->
  maskAgrees (<[i := a]> mask) answer.
Proof.
  intros Hm Ha. rewrite <- (list_insert_id answer i a Ha).
  apply Forall2_insert; [done|]. by right.
Qed.

Lemma hiddenSlots_reveal mask i a :
  mask !! i = Some underscore -> a <> underscore ->
  S (hiddenSlots (<[i := a]> mask)) = hiddenSlots mask.
Proof.
  unfold hiddenSlots. revert i. induction mask as [|m t IH]; intros i Hi Ha; [done|].
  destruct i as [|i]; cbn in Hi; cbn [insert list_insert].
  - injection Hi as ->. rewrite filter_cons_False by done.
    by rewrite filter_cons_True.
  - destruct (decide (m = underscore)) as [->|Hm].
    + rewrite !filter_cons_True by done. cbn. f_equal. by apply IH.
    + rewrite !filter_cons_False by done. by apply IH.
Qed.

Lemma workingMask_after g q h granted g' :
  CurrentQuestion g = Some q -> GetHint g = Ok (h, granted, g') ->
  hintMask g' = workingMask g q \/
  (granted = true /\ h = hintMask g' /\
   exists i a, workingMask g q !! i = Some underscore /\
               strings.TrimSpace (Answer q) !! i = Some a /\
               hintMask g' = <[i := a]> (workingMask g q)) \/
  (g' = g /\ granted = false).
Proof.
  intros Hq Hg. destruct (Z.le_gt_cases MaxHints (hintCount g)) as [Hc|Hc].
  - rewrite (GetHint_max g q Hq Hc) in Hg. injection Hg as <- <- <-. auto.
  - destruct (GetHint_spec g q h granted g' Hq Hc Hg)
      as (_ & [(-> & _ & Hh & Hr)|(-> & _ & Hm & _)]); auto.
Qed.

(** X6. A hint never shows a wrong character.  If the mask the game holds
    fits the answer (one slot per rune of the trimmed answer, each slot either
    hidden or showing that rune; a game without a mask qualifies), then
    through any number of [GetHint] calls the mask keeps fitting the answer,
    and every hint text handed out with granted=true fits it too. *)
Theorem GetHint_mask_agrees (g : Game) (q : Question) (n : nat) :
  CurrentQuestion g = Some q ->
  maskAgrees (workingMask g q) (strings.TrimSpace (Answer q)) ->
  Forall (fun r =>
            maskAgrees (workingMask r.2 q) (strings.TrimSpace (Answer q)) /\
            (r.1.2 = true ->
             maskAgrees r.1.1 (strings.TrimSpace (Answer q))))
         (hintCalls n g).
Proof.
  revert g. induction n as [|n IH]; intros g Hq Hm; cbn [hintCalls]; [constructor|].
  destruct (GetHint g) as [[[h granted] g']|] eqn:Hg; [|constructor].
  assert (CurrentQuestion g' = Some q) as Hq'.
  { destruct (GetHint_frame g h granted g' Hg) as (-> & _). done. }
  assert (maskAgrees (hintMask g') (strings.TrimSpace (Answer q)) \/ g' = g) as Hm'.
  { destruct (workingMask_after g q h granted g' Hq Hg)
      as [->|[(_ & _ & i & a & _ & Ha & ->)|[-> _]]]; auto.
    left. by apply maskAgrees_reveal. }
  assert (maskAgrees (workingMask g' q) (strings.TrimSpace (Answer q))) as Hw.
  { destruct Hm' as [Hm'| ->]; [|done]. unfold workingMask.
    destruct (length (hintMask g') =? 0)%nat; [apply initMask_agrees|done]. }
  constructor; [|by apply IH]. cbn. split; [done|].
  intros ->. destruct (workingMask_after g q h true g' Hq Hg)
    as [Hw1|[(_ & -> & i & a & _ & Ha & ->)|[_ ?]]]; [| |done].
  - destruct (Z.le_gt_cases MaxHints (hintCount g)) as [Hc|Hc].
    + rewrite (GetHint_max g q Hq Hc) in Hg. done.
    + destruct (GetHint_spec g q h true g' Hq Hc Hg)
        as (_ & [(_ & _ & -> & i & a & _ & Ha & ->)|(? & _)]); [|done].
      by apply maskAgrees_reveal.
  - by apply maskAgrees_reveal.
Qed.

Lemma GetHint_mask_agrees_witness :
  CurrentQuestion gameParis = Some qParis /\
  maskAgrees (workingMask gameParis qParis) (strings.TrimSpace (Answer qParis)) /\
  Forall (fun r =>
            maskAgrees (workingMask r.2 qParis) (strings.TrimSpace (Answer qParis)) /\
            (r.1.2 = true ->
             maskAgrees r.1.1 (strings.TrimSpace (Answer qParis))))
         (hintCalls 4 gameParis).
Proof.
  assert (maskAgrees (workingMask gameParis qParis)
            (strings.TrimSpace (Answer qParis))) as Hm
    by apply initMask_agrees.
  split; [reflexivity|]. split; [exact Hm|].
  apply (GetHint_mask_agrees gameParis qParis 4 eq_refl Hm).
Defined.

(** X7. Every granted hint uncovers a new position: when the answer holds
    no underscore of its own, a call that returns granted=true leaves exactly
    one hidden slot fewer than the mask it worked on had. *)
Theorem GetHint_uncovers_one (g : Game) (q : Question) (h : list Z) (g' : Game) :
  CurrentQuestion g = Some q ->
  underscore ∉ strings.TrimSpace (Answer q) ->
  GetHint g = Ok (h, true, g') ->
  S (hiddenSlots (hintMask g')) = hiddenSlots (workingMask g q) /\
  S (hiddenSlots h) = hiddenSlots (workingMask g q).
Proof.
  intros Hq Hu Hg. destruct (Z.le_gt_cases MaxHints (hintCount g)) as [Hc|Hc].
  - rewrite (GetHint_max g q Hq Hc) in Hg. done.
  - destruct (GetHint_spec g q h true g' Hq Hc Hg)
      as (_ & [(_ & _ & -> & i & a & Hi & Ha & ->)|(? & _)]); [|done].
    assert (a <> underscore) as Hne.
    { intros ->. apply Hu. by eapply list_elem_of_lookup_2. }
    split; by apply hiddenSlots_reveal.
Qed.

Lemma GetHint_uncovers_one_witness :
  CurrentQuestion gameParis = Some qParis /\
  (underscore ∉ strings.TrimSpace (Answer qParis)) /\
  hiddenSlots (workingMask gameParis qParis) = 5%nat /\
  exists h g',
    GetHint gameParis = Ok (h, true, g') /\
    S (hiddenSlots h) = hiddenSlots (workingMask gameParis qParis).
Proof.
  assert (underscore ∉ strings.TrimSpace (Answer qParis)) as Hu.
  { apply (bool_decide_unpack _). vm_compute. exact I. }
  split; [reflexivity|]. split; [exact Hu|]. split; [reflexivity|].
  destruct (GetHint gameParis) as [[[h granted] g']|] eqn:Hg;
    [|(vm_compute in Hg; discriminate)].
  assert (granted = true) as -> by (vm_compute in Hg; congruence).
  exists h, g'. split; [reflexivity|].
  apply (GetHint_uncovers_one gameParis qParis h g' eq_refl Hu Hg).
Defined.

Lemma revealFirst_finds rest answer mask : forall i,
  underscore ∈ rest -> (i + length rest <= length answer)%nat ->
  exists mask', revealFirst i rest answer mask = Ok (mask', true).
Proof.
  induction rest as [|r rest' IH]; intros i Hin Hl; [by apply elem_of_nil in Hin|].
  cbn [revealFirst]. cbn [length] in Hl.
  destruct (Z.eqb_spec r underscore) as [->|Hne].
  - destruct (lookup_lt_is_Some_2 answer i) as [a ->]; [lia|]. by eauto.
  - apply elem_of_cons in Hin as [?|Hin]; [done|]. apply IH; [done|lia].
Qed.

Lemma revealFirst_none rest answer mask : forall i,
  underscore ∉ rest -> revealFirst i rest answer mask = Ok (mask, false).
Proof.
  induction rest as [|r rest' IH]; intros i Hin; [done|].
  cbn [revealFirst]. apply not_elem_of_cons in Hin as [Hne Hin].
  destruct (Z.eqb_spec r underscore) as [->|_]; [done|]. by apply IH.
Qed.

Lemma revealRandom_none tries answer mask : forall rnd,
  underscore ∉ mask -> answer <> [] -> length mask = length answer ->
  exists rnd', revealRandom tries answer mask rnd = Ok (mask, rnd', false).
Proof.
  intros rnd Hu Ha Hl.
  destruct (revealRandom_total tries answer mask rnd Ha Hl)
    as ([[mask' rnd'] rev] & H).
  destruct (revealRandom_spec _ _ _ _ _ _ _ H) as [[-> ->]|[_ (i & a & Hi & _)]].
  - by eauto.
  - exfalso. apply Hu. by eapply list_elem_of_lookup_2.
Qed.

Lemma GetHint_grants_hidden g q :
  CurrentQuestion g = Some q ->
  hintCount g < MaxHints ->
  length (workingMask g q) = length (strings.TrimSpace (Answer q)) ->
  underscore ∈ workingMask g q ->
  exists h g', GetHint g = Ok (h, true, g') /\ hintCount g' = hintCount g + 1.
Proof.
  intros Hq Hc Hl.
  assert (forall h granted g', GetHint g = Ok (h, granted, g') ->
            granted = true ->
            exists h0 g0, GetHint g = Ok (h0, true, g0) /\
                          hintCount g0 = hintCount g + 1) as Hgrant.
  { intros h granted g' Hg ->.
    destruct (GetHint_spec g q h true g' Hq Hc Hg)
      as (_ & [(_ & Hc' & _)|(? & _)]); [by eauto|done]. }
  unfold GetHint in *. rewrite Hq in *.
  destruct (Z.leb_spec MaxHints (hintCount g)); [lia|].
  cbn zeta in *. set (answer := strings.TrimSpace (Answer q)) in *.
  set (g1 := if (length (hintMask g) =? 0)%nat then _ else g) in *.
  assert (hintMask g1 = workingMask g q) as Hm.
  { unfold workingMask. subst g1. by destruct (length (hintMask g) =? 0)%nat. }
  rewrite Hm in *. clearbody g1.
  intros Hin.
  assert (answer <> []) as Ha.
  { intros E. rewrite E in Hl. destruct (workingMask g q); [|done].
    by apply elem_of_nil in Hin. }
  destruct (revealRandom_total 5 answer (workingMask g q) (rand g1) Ha Hl)
    as ([[mask1 rnd1] rev1] & Er).
  rewrite Er in *. cbn [bind] in *.
  pose proof (revealRandom_spec _ _ _ _ _ _ _ Er) as [[-> ->]|[-> _]];
    cbn [revealFallback bind] in *.
  - destruct (revealFirst_finds (workingMask g q) answer (workingMask g q) 0%nat)
      as (mask2 & Ef); [done|cbn; lia|].
    rewrite Ef in *. cbn [bind] in *. by eapply Hgrant.
  - by eapply Hgrant.
Qed.

(** X8. The fallback guarantees progress.  Below [MaxHints], with a mask as
    long as the trimmed answer: if any slot is still hidden, [GetHint] grants
    a hint whatever the random draws are; if none is hidden (and the answer is
    not empty), it returns its no-more-characters message with granted=false
    and does not count a hint. *)
Theorem GetHint_progress (g : Game) (q : Question) :
  CurrentQuestion g = Some q ->
  hintCount g < MaxHints ->
  length (workingMask g q) = length (strings.TrimSpace (Answer q)) ->
  (underscore ∈ workingMask g q ->
   exists h g', GetHint g = Ok (h, true, g') /\ hintCount g' = hintCount g + 1) /\
  (underscore ∉ workingMask g q -> strings.TrimSpace (Answer q) <> [] ->
   exists g', GetHint g = Ok (msgNoMoreChars, false, g') /\
              hintCount g' = hintCount g /\ hintMask g' = workingMask g q).
Proof.
  intros Hq Hc Hl. split; [by apply GetHint_grants_hidden|].
  unfold GetHint. rewrite Hq.
  destruct (Z.leb_spec MaxHints (hintCount g)); [lia|].
  cbn zeta. set (answer := strings.TrimSpace (Answer q)) in *.
  set (g1 := if (length (hintMask g) =? 0)%nat then _ else g).
  assert (hintMask g1 = workingMask g q) as Hm.
  { unfold workingMask. subst g1. by destruct (length (hintMask g) =? 0)%nat. }
  assert (hintCount g1 = hintCount g) as Hc1.
  { subst g1. by destruct (length (hintMask g) =? 0)%nat. }
  rewrite Hm. clearbody g1.
  intros Hu Ha.
  destruct (revealRandom_none 5 answer (workingMask g q) (rand g1) Hu Ha Hl)
    as (rnd1 & ->).
  cbn [bind revealFallback]. rewrite revealFirst_none by done.
  cbn [bind]. eexists. split; [reflexivity|]. by cbn.
Qed.

Lemma GetHint_progress_witness :
  CurrentQuestion gameParis = Some qParis /\
  hintCount gameParis < MaxHints /\
  length (workingMask gameParis qParis)
  = length (strings.TrimSpace (Answer qParis)) /\
  (underscore ∈ workingMask gameParis qParis) /\
  exists h g', GetHint gameParis = Ok (h, true, g') /\
               hintCount g' = hintCount gameParis + 1.
Proof.
  assert (underscore ∈ workingMask gameParis qParis) as Hin.
  { apply (bool_decide_unpack _). vm_compute. exact I. }
  split; [reflexivity|]. split; [reflexivity|]. split; [reflexivity|].
  split; [exact Hin|].
  apply (GetHint_progress gameParis qParis eq_refl eq_refl eq_refl). exact Hin.
Defined.

(** C3 at an answer with an underscore of its own.  [GetHint] takes a slot
    for hidden when it holds ['_'], also when ['_'] is the answer's own
    character there.  Once the only slots holding ['_'] are such, a call
    below [MaxHints] still grants a hint and counts it, but the hint is the
    mask as it was: no character is revealed. *)
Theorem GetHint_counts_without_reveal (g : Game) (q : Question) :
  CurrentQuestion g = Some q ->
  hintCount g < MaxHints ->
  length (workingMask g q) = length (strings.TrimSpace (Answer q)) ->
  underscore ∈ workingMask g q ->
  (forall i, workingMask g q !! i = Some underscore ->
             strings.TrimSpace (Answer q) !! i = Some underscore) ->
  exists g',
    GetHint g = Ok (workingMask g q, true, g') /\
    hintCount g' = hintCount g + 1 /\
    hintMask g' = workingMask g q.
Proof.
  intros Hq Hc Hl Hin Hall.
  destruct (GetHint_grants_hidden g q Hq Hc Hl Hin) as (h & g' & Hg & Hc').
  destruct (GetHint_spec g q h true g' Hq Hc Hg)
    as (_ & [(_ & _ & Hh & i & a & Hi & Ha & Hm)|(? & _)]); [|done].
  rewrite (Hall i Hi) in Ha. injection Ha as <-.
  rewrite list_insert_id in Hm by done.
  exists g'. by rewrite Hg, Hh, Hm.
Qed.

Lemma GetHint_counts_without_reveal_witness :
  (hintCalls 2 gameUnderscore).*1 = [(str "__b", true); (str "a_b", true)] /\
  CurrentQuestion gameUnderscore2 = Some qUnderscore /\
  hintCount gameUnderscore2 = 2 /\
  hintMask gameUnderscore2 = str "a_b" /\
  exists g',
    GetHint gameUnderscore2 = Ok (str "a_b", true, g') /\
    hintCount g' = 3 /\ hintMask g' = str "a_b".
Proof.
  split; [vm_compute; reflexivity|].
  split; [reflexivity|]. split; [vm_compute; reflexivity|].
  split; [vm_compute; reflexivity|].
  apply (GetHint_counts_without_reveal gameUnderscore2 qUnderscore).
  - reflexivity.
  - vm_compute. reflexivity.
  - vm_compute. reflexivity.
  - apply (bool_decide_unpack _). vm_compute. exact I.
  - intros [|[|[|i]]] Hi; vm_compute in Hi; try discriminate Hi.
    vm_compute. reflexivity.
Defined.

(** X9. A blank answer makes [GetHint] panic: when the answer of the active
    question is empty once trimmed, a call below [MaxHints] asks [rand.Intn]
    for a number below 0 and the call panics. *)
Theorem GetHint_blank_answer_panics (g : Game) (q : Question) :
  CurrentQuestion g = Some q ->
  hintCount g < MaxHints ->
  strings.TrimSpace (Answer q) = [] ->
  GetHint g = Panic "invalid argument to Intn".
Proof.
  intros Hq Hc Ha. unfold GetHint. rewrite Hq, Ha.
  destruct (Z.leb_spec MaxHints (hintCount g)); [lia|].
  cbn zeta. by destruct (length (hintMask g) =? 0)%nat.
Qed.

Lemma GetHint_blank_answer_panics_witness :
  CurrentQuestion gameBlank = Some qBlank /\
  hintCount gameBlank < MaxHints /\
  Answer qBlank = str "  " /\
  strings.TrimSpace (Answer qBlank) = [] /\
  GetHint gameBlank = Panic "invalid argument to Intn".
Proof.
  split; [reflexivity|]. split; [reflexivity|]. split; [reflexivity|].
  split; [reflexivity|].
  apply (GetHint_blank_answer_panics gameBlank qBlank); reflexivity.
Defined.

(** ** Votes *)

Lemma castVotes_snoc users user g :
  castVotes (users ++ [user]) g = (AddNextVote (castVotes users g) user).2.
Proof. unfold castVotes. by rewrite foldl_app. Qed.

Lemma castVotes_state users : forall g q,
  CurrentQuestion g = Some q ->
  CurrentQuestion (castVotes users g) = Some q /\
  NextVoteThreshold (castVotes users g) = NextVoteThreshold g /\
  dom (nextVotes (castVotes users g)) = dom (nextVotes g) ∪ list_to_set users.
Proof.
  induction users as [|u users IH]; intros g q Hq.
  - cbn. split; [done|]. split; [done|]. set_solver.
  - change (castVotes (u :: users) g)
      with (castVotes users (AddNextVote g u).2).
    destruct (nextVotes g !! u) as [b|] eqn:Hu.
    + rewrite (AddNextVote_duplicate g q u b Hq Hu). cbn [snd].
      destruct (IH g q Hq) as (H1 & H2 & H3).
      split; [done|]. split; [done|]. rewrite H3.
      assert (u ∈ dom (nextVotes g)) by (apply elem_of_dom; eauto).
      set_solver.
    + rewrite (AddNextVote_new g q u Hq Hu). cbn [snd].
      destruct (IH (with_nextVotes (<[u:=true]> (nextVotes g)) g) q Hq)
        as (H1 & H2 & H3).
      split; [done|]. split; [done|]. rewrite H3. cbn.
      rewrite dom_insert_L. set_solver.
Qed.

(** X10. The tally is the number of distinct voters.  Starting a round
    with no votes, after any series of votes the next call of [AddNextVote]
    returns as tally the number of distinct users who have voted, the caller
    included, together with the threshold; it returns skipNow=true exactly
    when the caller had not voted before and that tally is at least the
    threshold. *)
Theorem AddNextVote_counts_distinct_users
    (g : Game) (q : Question) (users : list (list Z)) (user : list Z) :
  CurrentQuestion g = Some q ->
  nextVotes g = ∅ ->
  let '(tally, threshold, skipNow, _) := AddNextVote (castVotes users g) user in
  tally = Z.of_nat (size (list_to_set (users ++ [user]) : gset (list Z))) /\
  threshold = NextVoteThreshold g /\
  (skipNow = true <-> (user ∉ users) /\ NextVoteThreshold g <= tally).
Proof.
  intros Hq Hv. destruct (castVotes_state users g q Hq) as (Hq' & Ht & Hd).
  rewrite Hv, dom_empty_L, (left_id_L ∅ (∪)) in Hd.
  rewrite list_to_set_app_L. cbn [list_to_set]. rewrite (right_id_L ∅ (∪)).
  destruct (nextVotes (castVotes users g) !! user) as [b|] eqn:Hu.
  - rewrite (AddNextVote_duplicate _ q user b Hq' Hu).
    assert (user ∈ (list_to_set users : gset (list Z))) as Hin
      by (rewrite <- Hd; apply elem_of_dom; eauto).
    rewrite <- size_dom, Hd. split; [|split; [done|]].
    + f_equal. f_equal. set_solver.
    + split; [done|]. intros [Hn _]. exfalso. apply Hn.
      by apply elem_of_list_to_set in Hin.
  - rewrite (AddNextVote_new _ q user Hq' Hu).
    assert (user ∉ (list_to_set users : gset (list Z))) as Hnin
      by (rewrite <- Hd; by apply not_elem_of_dom).
    rewrite <- size_dom, Hd, Ht.
    rewrite size_union by set_solver. rewrite size_singleton.
    split; [lia|]. split; [done|].
    rewrite Z.leb_le. rewrite elem_of_list_to_set in Hnin. split.
    + intros H. split; [done|]. lia.
    + intros [_ H]. lia.
Qed.

Lemma AddNextVote_counts_distinct_users_witness :
  CurrentQuestion gameQuorum2 = Some qA /\
  nextVotes gameQuorum2 = ∅ /\
  AddNextVote (castVotes [str "ann"; str "ann"] gameQuorum2) (str "bob")
  = (2, 2, true,
     (AddNextVote (castVotes [str "ann"; str "ann"] gameQuorum2) (str "bob")).2).
Proof.
  split; [reflexivity|]. split; [reflexivity|].
  pose proof (AddNextVote_counts_distinct_users gameQuorum2 qA
                [str "ann"; str "ann"] (str "bob") eq_refl eq_refl) as H.
  destruct (AddNextVote (castVotes [str "ann"; str "ann"] gameQuorum2) (str "bob"))
    as [[[tally threshold] skipNow] g'] eqn:E.
  destruct H as (Ht & Hth & Hs). cbn [snd].
  assert (tally = 2) as -> by (rewrite Ht; vm_compute; reflexivity).
  assert (threshold = 2) as -> by (rewrite Hth; reflexivity).
  assert (skipNow = true) as ->.
  { apply Hs. split; [|vm_compute; discriminate].
    apply (bool_decide_unpack _). vm_compute. exact I. }
  reflexivity.
Defined.

(** ** The scoreboard *)

Lemma wrap64_inInt64 z : inInt64 (wrap64 z).
Proof.
  unfold inInt64, wrap64.
  pose proof (Z.mod_pos_bound (z + 2 ^ 63) (2 ^ 64) ltac:(lia)). lia.
Qed.

Lemma wrap64_id z : inInt64 z -> wrap64 z = z.
Proof.
  unfold inInt64, wrap64. intros H. rewrite Z.mod_small by lia. lia.
Qed.

Lemma wrap64_add_l a b : wrap64 (wrap64 a + b) = wrap64 (a + b).
Proof.
  unfold wrap64. f_equal.
  replace ((a + 2 ^ 63) `mod` 2 ^ 64 - 2 ^ 63 + b + 2 ^ 63)
    with ((a + 2 ^ 63) `mod` 2 ^ 64 + b) by lia.
  rewrite Zplus_mod_idemp_l. f_equal. lia.
Qed.

Lemma GetScore_AddScore sb player points other :
  GetScore (AddScore sb player points) other
  = if decide (player = other) then wrap64 (GetScore sb player + points)
    else GetScore sb other.
Proof.
  unfold GetScore at 1, AddScore. cbn [Scores].
  destruct (decide (player = other)) as [->|Hne].
  - by rewrite lookup_insert_eq.
  - by rewrite lookup_insert_ne.
Qed.

(** X11. Scores add up per player.  After any series of [AddScore] calls a
    player's score is the score held before plus the points those calls gave
    to that player (wrapped to 64 bits), whatever was given to others; a
    player never given points reads as before, and as 0 when unknown; after
    [Reset] every player reads 0. *)
Theorem AddScore_accumulates (sb : Scoreboard) (calls : list (list Z * Z)) (player : list Z) :
  inInt64 (GetScore sb player) ->
  GetScore (addScores calls sb) player
  = wrap64 (GetScore sb player + pointsFor player calls) /\
  (Scores sb !! player = None -> pointsFor player calls = 0 ->
   GetScore (addScores calls sb) player = 0) /\
  GetScore (ResetScores (addScores calls sb)) player = 0.
Proof.
  intros Hin.
  assert (GetScore (addScores calls sb) player
          = wrap64 (GetScore sb player + pointsFor player calls)) as H.
  { revert sb Hin. induction calls as [|[p n] calls IH]; intros sb Hin.
    - cbn. by rewrite Z.add_0_r, wrap64_id.
    - change (addScores ((p, n) :: calls) sb)
        with (addScores calls (AddScore sb p n)).
      rewrite IH.
      + rewrite GetScore_AddScore. cbn [pointsFor foldr fst snd].
        fold (pointsFor player calls).
        destruct (decide (p = player)) as [->|Hne].
        * rewrite wrap64_add_l. f_equal. lia.
        * done.
      + rewrite GetScore_AddScore. destruct (decide (p = player)); [|done].
        apply wrap64_inInt64. }
  split; [done|]. split; [|done].
  intros Hnone Hz. rewrite H, Hz. unfold GetScore. rewrite Hnone. done.
Qed.

Lemma AddScore_accumulates_witness :
  inInt64 (GetScore {| Scores := ∅ |} (str "ann")) /\
  pointsFor (str "ann") scoreCalls0 = -48 /\
  GetScore (addScores scoreCalls0 {| Scores := ∅ |}) (str "ann") = -48 /\
  GetScore (addScores scoreCalls0 {| Scores := ∅ |}) (str "bob") = 1.
Proof.
  assert (inInt64 (GetScore {| Scores := ∅ |} (str "ann"))) as Ha
    by (unfold inInt64; replace (GetScore _ _) with 0 by reflexivity; lia).
  assert (inInt64 (GetScore {| Scores := ∅ |} (str "bob"))) as Hb
    by (unfold inInt64; replace (GetScore _ _) with 0 by reflexivity; lia).
  split; [exact Ha|]. split; [vm_compute; reflexivity|].
  split.
  - rewrite (proj1 (AddScore_accumulates _ scoreCalls0 (str "ann") Ha)).
    vm_compute. reflexivity.
  - rewrite (proj1 (AddScore_accumulates _ scoreCalls0 (str "bob") Hb)).
    vm_compute. reflexivity.
Defined.

(** ** The top scores *)

Lemma sweep_spec x rest :
  (sweep x rest).1 :: (sweep x rest).2 ≡ₚ x :: rest /\
  length (sweep x rest).2 = length rest /\
  x.2 <= (sweep x rest).1.2 /\
  Forall (fun y => y.2 <= (sweep x rest).1.2) (sweep x rest).2.
Proof.
  revert x. induction rest as [|y rest IH]; intros x; cbn [sweep].
  - cbn. split; [done|]. split; [done|]. split; [lia|constructor].
  - destruct (Z.ltb_spec x.2 y.2) as [Hlt|Hge].
    + destruct (IH y) as (Hp & Hl & Hle & Hall).
      destruct (sweep y rest) as [m r]. cbn in *.
      split; [by rewrite (Permutation_swap x m r), Hp|].
      split; [by rewrite Hl|]. split; [lia|]. constructor; [lia|done].
    + destruct (IH x) as (Hp & Hl & Hle & Hall).
      destruct (sweep x rest) as [m r]. cbn in *.
      split; [by rewrite (Permutation_swap y m r), Hp, (Permutation_swap x y rest)|].
      split; [by rewrite Hl|]. split; [lia|]. constructor; [lia|done].
Qed.

Lemma sortFrom_spec n : forall l,
  length l = n ->
  sortFrom n l ≡ₚ l /\ StronglySorted (fun a b => b.2 <= a.2) (sortFrom n l).
Proof.
  induction n as [|n IH]; intros l Hl.
  - destruct l; [|done]. cbn. split; [done|constructor].
  - destruct l as [|x rest]; [done|]. cbn [sortFrom].
    destruct (sweep_spec x rest) as (Hp & Hlen & _ & Hall).
    destruct (sweep x rest) as [m r]. cbn in *.
    destruct (IH r) as [Hp' Hs]; [lia|].
    split; [by rewrite Hp', Hp|].
    constructor; [done|]. by rewrite Hp'.
Qed.

Lemma list_insert_at_middle {A} (l1 l2 : list A) a b :
  <[length l1 := b]> (l1 ++ a :: l2) = l1 ++ b :: l2.
Proof.
  pose proof (insert_app_r l1 (a :: l2) 0 b) as H.
  rewrite Nat.add_0_r in H. exact H.
Qed.

Lemma swapIfLess_middle pre x mid y rest :
  swapIfLess (length pre) (length pre + S (length mid))
    (pre ++ x :: mid ++ y :: rest)
  = if x.2 <? y.2 then pre ++ y :: mid ++ x :: rest
    else pre ++ x :: mid ++ y :: rest.
Proof.
  unfold swapIfLess.
  assert ((pre ++ x :: mid ++ y :: rest) !! length pre = Some x) as ->.
  { by apply list_lookup_middle. }
  assert ((pre ++ x :: mid ++ y :: rest) !! (length pre + S (length mid))%nat
          = Some y) as ->.
  { rewrite lookup_app_r by lia.
    replace (length pre + S (length mid) - length pre)%nat
      with (S (length mid)) by lia.
    cbn. by apply list_lookup_middle. }
  destruct (x.2 <? y.2); [|done].
  rewrite list_insert_at_middle, insert_app_r. cbn [insert list_insert].
  f_equal. f_equal. apply list_insert_at_middle.
Qed.

(** The inner loop run by index is one [sweep]. *)
Lemma sortInner_sweep rest : forall pre x mid,
  sortInner (length rest) (length pre) (length pre + S (length mid))
    (pre ++ x :: mid ++ rest)
  = pre ++ (sweep x rest).1 :: mid ++ (sweep x rest).2.
Proof.
  induction rest as [|y rest IH]; intros pre x mid; [done|].
  cbn [length sortInner sweep]. rewrite swapIfLess_middle.
  replace (S (length pre + S (length mid)))
    with (length pre + S (length (mid ++ [x])))%nat
    by (rewrite length_app; cbn; lia).
  destruct (x.2 <? y.2).
  - replace (pre ++ y :: mid ++ x :: rest)
      with (pre ++ y :: (mid ++ [x]) ++ rest) by (by rewrite <- app_assoc).
    rewrite IH. destruct (sweep y rest) as [m r]. cbn.
    by rewrite <- app_assoc.
  - replace (length pre + S (length (mid ++ [x])))%nat
      with (length pre + S (length (mid ++ [y])))%nat
      by (rewrite !length_app; cbn; lia).
    replace (pre ++ x :: mid ++ y :: rest)
      with (pre ++ x :: (mid ++ [y]) ++ rest) by (by rewrite <- app_assoc).
    rewrite IH. destruct (sweep x rest) as [m r]. cbn.
    by rewrite <- app_assoc.
Qed.

Lemma sortOuter_sortFrom n : forall pre suf,
  length suf = n ->
  sortOuter n (length pre) (pre ++ suf) = pre ++ sortFrom n suf.
Proof.
  induction n as [|n IH]; intros pre suf Hl; [by destruct suf|].
  destruct suf as [|x rest]; [done|]. cbn [sortOuter sortFrom].
  replace (length (pre ++ x :: rest) - S (length pre))%nat with (length rest)
    by (rewrite length_app; cbn; lia).
  replace (S (length pre)) with (length pre + S (length (@nil (list Z * Z))))%nat
    at 2 by (cbn; lia).
  change (pre ++ x :: rest) with (pre ++ x :: [] ++ rest).
  rewrite sortInner_sweep.
  destruct (sweep_spec x rest) as (_ & Hlen & _).
  destruct (sweep x rest) as [m r]. cbn in *.
  replace (S (length pre)) with (length (pre ++ [m]))
    by (rewrite length_app; cbn; lia).
  replace (pre ++ m :: r) with ((pre ++ [m]) ++ r) by (by rewrite <- app_assoc).
  rewrite IH by lia. by rewrite <- app_assoc.
Qed.

(** X12. The exchange sort of [!topscores] sorts: whatever order [range]
    delivers the players in, the sorted slice is a rearrangement of them in
    which no player stands before one with a higher score; so none of the
    players left out of the five listed has a higher score than a listed
    one. *)
Theorem sortPlayers_sorts (players : list (list Z * Z)) :
  sortPlayers players ≡ₚ players /\
  StronglySorted (fun a b => b.2 <= a.2) (sortPlayers players) /\
  (forall a b,
      a ∈ take 5 (sortPlayers players) -> b ∈ drop 5 (sortPlayers players) ->
      b.2 <= a.2).
Proof.
  assert (sortPlayers players = sortFrom (length players) players) as ->.
  { unfold sortPlayers. apply (sortOuter_sortFrom (length players) [] players).
    done. }
  destruct (sortFrom_spec (length players) players eq_refl) as [Hp Hs].
  split; [done|]. split; [done|].
  intros a b Ha Hb. revert Hs Ha Hb.
  generalize (sortFrom (length players) players) as l. generalize 5%nat as k.
  induction k as [|k IH]; intros l Hs Ha Hb; [by apply elem_of_nil in Ha|].
  destruct l as [|x l]; [by apply elem_of_nil in Ha|].
  cbn in Ha, Hb. apply StronglySorted_inv in Hs as [Hs Hx].
  apply elem_of_cons in Ha as [->|Ha].
  - rewrite Forall_forall in Hx. apply Hx.
    by eapply subseteq_drop.
  - by apply (IH l).
Qed.

(** ** Answers, timeouts and the handler *)




(** ** Timeouts *)

Lemma questionTimeout_active w q :
  CurrentQuestion (triviaGame w) = Some q ->
  questionTimeout w
  = Ok (let w1 := with_game (ClearCurrentQuestion (triviaGame w))
                    (say (GameChannel (triviaGame w))
                       (str "Time's up! The answer was: " ++ Answer q) w) in
        if GetPlaying (triviaGame w) then sendAnswerGiven false w1 else w1).
Proof.
  intros Hq. unfold questionTimeout, currentQuestionOrPanic, GetCurrentQuestion.
  rewrite Hq. cbn [bind triviaGame with_game say].
  assert (GetPlaying (ClearCurrentQuestion (triviaGame w))
          = GetPlaying (triviaGame w)) as ->.
  { unfold ClearCurrentQuestion, GetPlaying. cbn.
    by destruct (QuestionTimer (triviaGame w)). }
  by destruct (GetPlaying (triviaGame w)).
Qed.

(** X14. A cleared round's timeout stays silent.  Once
    [ClearCurrentQuestion] has run, the timer the game held can fire no more:
    in any later state in which that timer is as the clearing left it,
    letting it fire changes nothing and sends nothing, whether a new question
    has been started meanwhile or not. *)
Theorem cleared_timeout_is_silent (w w' : World) (t : nat) :
  QuestionTimer (triviaGame w) = Some t ->
  timers (triviaGame w') !! t
  = timers (ClearCurrentQuestion (triviaGame w)) !! t ->
  fireTimer t w' = Ok w'.
Proof.
  intros Ht Hg. unfold fireTimer. rewrite Hg.
  unfold ClearCurrentQuestion.
  cbn [QuestionTimer timers with_nextVotes with_hintMask with_hintCount
       with_CurrentQuestion with_timers].
  rewrite Ht. cbn [timers with_timers]. rewrite list_lookup_alter_eq.
  destruct (timers (triviaGame w) !! t) as [tm|];
    cbn [fmap option_fmap option_map]; [|done].
  unfold Stop. destruct (tstate tm) eqn:E; cbn [tstate]; rewrite ?E; done.
Qed.

Lemma cleared_timeout_is_silent_witness :
  QuestionTimer (triviaGame worldAsked) = Some 0%nat /\
  (exists tm, timers (triviaGame worldAsked) !! 0%nat = Some tm /\
              tstate tm = Pending) /\
  (exists q, GetCurrentQuestion (triviaGame worldNext) = Some q) /\
  fireTimer 0 worldCleared = Ok worldCleared /\
  fireTimer 0 worldNext = Ok worldNext.
Proof.
  split; [reflexivity|]. split; [eexists; split; reflexivity|].
  split; [eexists; vm_compute; reflexivity|].
  split.
  - apply (cleared_timeout_is_silent worldAsked worldCleared 0); reflexivity.
  - apply (cleared_timeout_is_silent worldAsked worldNext 0);
      [reflexivity | vm_compute; reflexivity].
Defined.

Lemma askQuestionW_some w q g1 :
  StartRound (triviaGame w) = Ok (Some q, g1) ->
  exists w1,
    askQuestionW w = Ok w1 /\
    CurrentQuestion (triviaGame w1) = Some q /\
    timers (triviaGame w1)
    = timers (triviaGame w) ++ [{| delay := 30 * Second; tstate := Pending |}] /\
    QuestionTimer (triviaGame w1) = Some (length (timers (triviaGame w))) /\
    GameChannel (triviaGame w1) = GameChannel (triviaGame w) /\
    IsPlaying (triviaGame w1) = IsPlaying (triviaGame w) /\
    outbox (ircClient w1)
    = outbox (ircClient w) ++ [(GameChannel (triviaGame w), msgQuestion q)] /\
    scoreboard w1 = scoreboard w /\ answerGiven w1 = answerGiven w /\
    gameStopChanClosed w1 = gameStopChanClosed w.
Proof.
  intros Hs. unfold askQuestionW. rewrite (askQuestion_some _ _ q g1 Hs).
  cbn [bind]. eexists. split; [reflexivity|]. cbn.
  apply StartRound_frame in Hs as (Hq & _ & _ & _ & _ & Hp & Hch & _ & Htm).
  by rewrite Hq, Htm, Hch, Hp.
Qed.

(** X15. A timeout left over from a replaced round ends the new round.
    [askQuestion] does not stop the timer of the round it replaces: when two
    calls in a row both start a round, the first round's timer is still
    pending, the game holds only the second; and when that first timer fires
    it finds the second question active, announces its answer as timed out
    and clears the round. *)
Theorem stale_timeout_ends_new_round
    (w w1 : World) (q1 q2 : Question) (ga gb : Game) :
  StartRound (triviaGame w) = Ok (Some q1, ga) ->
  askQuestionW w = Ok w1 ->
  StartRound (triviaGame w1) = Ok (Some q2, gb) ->
  exists w2 w3,
    askQuestionW w1 = Ok w2 /\
    GetCurrentQuestion (triviaGame w2) = Some q2 /\
    QuestionTimer (triviaGame w2) = Some (S (length (timers (triviaGame w)))) /\
    timers (triviaGame w2) !! length (timers (triviaGame w))
    = Some {| delay := 30 * Second; tstate := Pending |} /\
    fireTimer (length (timers (triviaGame w))) w2 = Ok w3 /\
    GetCurrentQuestion (triviaGame w3) = None /\
    outbox (ircClient w3)
    = outbox (ircClient w2)
      ++ [(GameChannel (triviaGame w),
           str "Time's up! The answer was: " ++ Answer q2)].
Proof.
  intros Hs1 Ha1 Hs2.
  destruct (askQuestionW_some w q1 ga Hs1)
    as (w1' & Ha1' & _ & Htm1 & _ & Hch1 & _).
  rewrite Ha1 in Ha1'. injection Ha1' as <-.
  destruct (askQuestionW_some w1 q2 gb Hs2)
    as (w2 & Ha2 & Hq2 & Htm2 & Hqt2 & Hch2 & _).
  set (t := length (timers (triviaGame w))) in *.
  assert (timers (triviaGame w2) !! t
          = Some {| delay := 30 * Second; tstate := Pending |}) as Hl.
  { rewrite Htm2, Htm1. rewrite lookup_app_l by (rewrite length_app; cbn; lia).
    by apply list_lookup_middle. }
  eexists w2, _. split; [done|]. split; [done|].
  split; [by rewrite Hqt2, Htm1, length_app, Nat.add_1_r|].
  split; [done|].
  unfold fireTimer. rewrite Hl. cbn [tstate delay].
  rewrite (questionTimeout_active _ q2) by done. cbn zeta.
  split; [reflexivity|].
  cbn [triviaGame with_game say].
  split.
  - destruct (GetPlaying _); cbn; unfold ClearCurrentQuestion; cbn;
      by destruct (QuestionTimer (triviaGame w2)).
  - destruct (GetPlaying _); cbn; by rewrite Hch2, Hch1.
Qed.

Lemma stale_timeout_ends_new_round_witness :
  exists q1 ga q2 gb,
    StartRound (triviaGame world0) = Ok (Some q1, ga) /\
    askQuestionW world0 = Ok worldAsked /\
    StartRound (triviaGame worldAsked) = Ok (Some q2, gb) /\
    exists w2 w3,
      askQuestionW worldAsked = Ok w2 /\
      GetCurrentQuestion (triviaGame w2) = Some q2 /\
      fireTimer (length (timers (triviaGame world0))) w2 = Ok w3 /\
      GetCurrentQuestion (triviaGame w3) = None.
Proof.
  destruct (StartRound (triviaGame world0)) as [[[q1|] ga]|] eqn:H1;
    [|(vm_compute in H1; discriminate)|(vm_compute in H1; discriminate)].
  destruct (StartRound (triviaGame worldAsked)) as [[[q2|] gb]|] eqn:H2;
    [|(vm_compute in H2; discriminate)|(vm_compute in H2; discriminate)].
  assert (askQuestionW world0 = Ok worldAsked) as Ha
    by (vm_compute; reflexivity).
  exists q1, ga, q2, gb. split; [reflexivity|]. split; [exact Ha|].
  split; [reflexivity|].
  destruct (stale_timeout_ends_new_round world0 worldAsked q1 q2 ga gb H1 Ha H2)
    as (w2 & w3 & A1 & A2 & _ & _ & A3 & A4 & _).
  exists w2, w3. split; [exact A1|]. split; [exact A2|].
  split; [exact A3|exact A4].
Defined.

(** ** The handler *)

Lemma Handler_stop target user w :
  Handler target user (str "!stop") w
  = if negb (GetPlaying (triviaGame w))
    then Ok (say target (str "Trivia is not currently running.") w)
    else
      let* w := closeGameStopChan (with_game (SetPlaying false (triviaGame w)) w) in
      Ok (say target (str "Stopping continuous trivia.") w).
Proof. reflexivity. Qed.

Lemma Handler_hint target user w :
  Handler target user (str "!hint") w
  = let* (hint, given, g') := GetHint (triviaGame w) in
    let w := with_game g' w in
    if given then
      let* q := currentQuestionOrPanic g' in
      let w := say target (str "Hint for " ++ Category q ++ str ": " ++ hint) w in
      Ok (with_scoreboard (AddScore (scoreboard w) user (- HintCost)) w)
    else Ok (say target hint w).
Proof. reflexivity. Qed.

Lemma askQuestionW_closed w w' :
  askQuestionW w = Ok w' -> gameStopChanClosed w' = gameStopChanClosed w.
Proof.
  unfold askQuestionW. destruct (askQuestion _ _) as [[c g]|]; [|done].
  by intros [= <-].
Qed.

Lemma handleAnswer_closed user target attempt w w' :
  handleAnswer user target attempt w = Ok w' ->
  gameStopChanClosed w' = gameStopChanClosed w.
Proof.
  unfold handleAnswer. destruct (CheckAnswer _ _); [|by intros [= <-]].
  destruct (currentQuestionOrPanic _); [|done]. cbn [bind].
  destruct (GetPlaying _); by intros [= <-].
Qed.

(** Nothing in the handler makes a new [gameStopChan]: closed stays closed. *)
Lemma Handler_keeps_closed target user message w w' :
  Handler target user message w = Ok w' ->
  gameStopChanClosed w = true -> gameStopChanClosed w' = true.
Proof.
  intros H Hc. unfold Handler in H.
  repeat match type of H with
         | (if ?b then _ else _) = _ => destruct b
         | match ?o with Some _ => _ | None => _ end = _ => destruct o
         end;
    try (injection H as <-; exact Hc);
    try (apply askQuestionW_closed in H; cbn in H; congruence);
    try (apply handleAnswer_closed in H; congruence).
  - unfold closeGameStopChan in H. cbn in H. by rewrite Hc in H.
  - destruct (GetHint _) as [[[hint given] g']|]; [|done]. cbn [bind] in H.
    destruct given.
    + destruct (currentQuestionOrPanic g'); [|done]. by injection H as <-.
    + by injection H as <-.
  - destruct (AddNextVote _ _) as [[[cv th] skipped] g'].
    destruct skipped.
    + destruct (currentQuestionOrPanic g'); [|done]. cbn [bind] in H.
      destruct (GetPlaying _); by injection H as <-.
    + by injection H as <-.
Qed.

Lemma handleAll_keeps_closed msgs : forall w w',
  handleAll msgs w = Ok w' ->
  gameStopChanClosed w = true -> gameStopChanClosed w' = true.
Proof.
  induction msgs as [|[[target user] message] msgs IH]; intros w w' H Hc.
  - by injection H as <-.
  - cbn [handleAll] in H.
    destruct (Handler target user message w) as [w1|] eqn:E; [|done].
    cbn [bind] in H. apply (IH w1 w' H).
    by apply (Handler_keeps_closed _ _ _ _ _ E).
Qed.

(** X16. Continuous play can be stopped once.  [!stop] during continuous
    play closes [gameStopChan] and switches play off.  No later message
    reopens the channel; so whenever continuous play is on again (after a
    later [!start]), the next [!stop] closes a closed channel and the process
    panics. *)
Theorem Handler_stop_only_once (w : World) (target user : list Z) :
  GetPlaying (triviaGame w) = true ->
  gameStopChanClosed w = false ->
  exists w1,
    Handler target user (str "!stop") w = Ok w1 /\
    GetPlaying (triviaGame w1) = false /\
    gameStopChanClosed w1 = true /\
    forall msgs w2,
      handleAll msgs w1 = Ok w2 ->
      gameStopChanClosed w2 = true /\
      (GetPlaying (triviaGame w2) = true ->
       forall target' user',
         Handler target' user' (str "!stop") w2 = Panic "close of closed channel").
Proof.
  intros Hp Hc. rewrite Handler_stop, Hp. cbn [negb].
  unfold closeGameStopChan. cbn [gameStopChanClosed with_game]. rewrite Hc.
  cbn [bind]. eexists. split; [reflexivity|]. split; [done|]. split; [done|].
  intros msgs w2 H.
  assert (gameStopChanClosed w2 = true) as Hc2
    by (by apply (handleAll_keeps_closed msgs _ _ H)).
  split; [done|]. intros Hp2 target' user'.
  rewrite Handler_stop, Hp2. cbn [negb].
  unfold closeGameStopChan. cbn [gameStopChanClosed with_game]. by rewrite Hc2.
Qed.

Lemma Handler_stop_only_once_witness :
  GetPlaying (triviaGame worldStarted) = true /\
  gameStopChanClosed worldStarted = false /\
  handleAll startStopStartStop world0 = Panic "close of closed channel".
Proof.
  split; [reflexivity|]. split; [reflexivity|].
  destruct (Handler_stop_only_once worldStarted channel0 (str "ann")
              eq_refl eq_refl) as (w1 & H1 & _ & _ & Hlater).
  assert (Handler channel0 (str "ann") (str "!start") world0 = Ok worldStarted)
    as H0 by (vm_compute; reflexivity).
  destruct (Handler channel0 (str "bob") (str "!start") w1) as [w2|] eqn:H2.
  - assert (GetPlaying (triviaGame w2) = true) as Hp2.
    { vm_compute in H1. injection H1 as <-. vm_compute in H2.
      injection H2 as <-. reflexivity. }
    assert (handleAll [(channel0, str "bob", str "!start")] w1 = Ok w2) as Hrun.
    { cbn [handleAll]. rewrite H2. reflexivity. }
    destruct (Hlater _ w2 Hrun) as [_ Hpanic].
    unfold startStopStartStop. cbn [handleAll].
    rewrite H0. cbn [bind]. rewrite H1. cbn [bind]. rewrite H2. cbn [bind].
    rewrite (Hpanic Hp2 channel0 (str "bob")). reflexivity.
  - exfalso. vm_compute in H1. injection H1 as <-. vm_compute in H2.
    discriminate H2.
Defined.

Lemma Handler_hint_step w target user h given g' :
  GetHint (triviaGame w) = Ok (h, given, g') ->
  exists w',
    Handler target user (str "!hint") w = Ok w' /\
    triviaGame w' = g' /\
    scoreboard w'
    = (if given then AddScore (scoreboard w) user (- HintCost) else scoreboard w) /\
    exists text,
      outbox (ircClient w') = outbox (ircClient w) ++ [(target, text)] /\
      (given = false -> text = h) /\
      (given = true ->
       exists q, CurrentQuestion (triviaGame w) = Some q /\
                 text = str "Hint for " ++ Category q ++ str ": " ++ h).
Proof.
  intros Hg. rewrite Handler_hint, Hg. cbn [bind].
  destruct (GetHint_frame _ _ _ _ Hg) as (Hq & _ & Hn).
  destruct given.
  - unfold currentQuestionOrPanic, GetCurrentQuestion. rewrite Hq.
    destruct (CurrentQuestion (triviaGame w)) as [q|] eqn:E.
    + cbn [bind]. eexists. split; [reflexivity|]. split; [done|].
      split; [done|]. eexists. split; [reflexivity|]. split; [done|]. eauto.
    + exfalso. unfold GetHint in Hg. rewrite E in Hg. done.
  - eexists. split; [reflexivity|]. split; [done|]. split; [done|].
    eexists. split; [reflexivity|]. split; done.
Qed.

(** X17. Hints on one question cost a user at most 150 points.  Each
    [!hint] sends one message to the target and takes [HintCost] = 50 points
    from the user only when the hint is granted; so through any number of
    [!hint] commands on one question the scoreboard changes by [k] deductions
    of 50 from that user, with [k] at most 3, and by nothing else. *)
Theorem Handler_hints_cost_at_most_150
    (n : nat) (w w' : World) (q : Question) (target user : list Z) :
  CurrentQuestion (triviaGame w) = Some q ->
  0 <= hintCount (triviaGame w) ->
  handleAll (replicate n (target, user, str "!hint")) w = Ok w' ->
  exists k : nat,
    (k <= 3)%nat /\
    scoreboard w' = addScores (replicate k (user, - HintCost)) (scoreboard w) /\
    length (outbox (ircClient w')) = (length (outbox (ircClient w)) + n)%nat.
Proof.
  intros Hq Hc Hrun.
  assert (exists k : nat,
            Z.of_nat k = grantedCount (hintCalls n (triviaGame w)) /\
            scoreboard w' = addScores (replicate k (user, - HintCost)) (scoreboard w) /\
            length (outbox (ircClient w')) = (length (outbox (ircClient w)) + n)%nat)
    as (k & Hk & Hs & Ho).
  { clear Hc. revert w Hq Hrun. induction n as [|n IH]; intros w Hq Hrun.
    - injection Hrun as <-. exists 0%nat. cbn. split; [done|]. split; [done|]. lia.
    - cbn [replicate handleAll] in Hrun.
      destruct (GetHint (triviaGame w)) as [[[h given] g']|] eqn:Hg.
      + destruct (Handler_hint_step w target user h given g' Hg)
          as (w1 & H1 & Hg1 & Hs1 & text & Ho1 & _).
        rewrite H1 in Hrun. cbn [bind] in Hrun.
        destruct (GetHint_frame _ _ _ _ Hg) as (Hq' & _).
        destruct (IH w1) as (k & Hk & Hs & Ho); [by rewrite Hg1, Hq', Hq|done|].
        cbn [hintCalls]. rewrite Hg. unfold grantedCount in *.
        rewrite Ho, Ho1, length_app. cbn [length].
        destruct given.
        * exists (S k). rewrite filter_cons_True by done. cbn [length].
          rewrite <- Hg1. split; [lia|]. split; [by rewrite Hs, Hs1|lia].
        * exists k. rewrite filter_cons_False by (cbn; congruence).
          rewrite <- Hg1. split; [done|]. split; [by rewrite Hs, Hs1|lia].
      + rewrite Handler_hint, Hg in Hrun. done. }
  exists k. split; [|done].
  pose proof (GetHint_granted_bound n (triviaGame w) q Hq) as Hb.
  unfold MaxHints in Hb. lia.
Qed.

Lemma Handler_hints_cost_at_most_150_witness :
  exists q w',
    CurrentQuestion (triviaGame worldAsked) = Some q /\
    0 <= hintCount (triviaGame worldAsked) /\
    handleAll (replicate 5 (channel0, str "ann", str "!hint")) worldAsked = Ok w' /\
    GetScore (scoreboard w') (str "ann") = -100 /\
    exists k : nat,
      (k <= 3)%nat /\
      scoreboard w'
      = addScores (replicate k (str "ann", - HintCost)) (scoreboard worldAsked).
Proof.
  destruct (CurrentQuestion (triviaGame worldAsked)) as [q|] eqn:Hq;
    [|(vm_compute in Hq; discriminate)].
  destruct (handleAll (replicate 5 (channel0, str "ann", str "!hint")) worldAsked)
    as [w'|] eqn:Hrun; [|(vm_compute in Hrun; discriminate)].
  assert (0 <= hintCount (triviaGame worldAsked)) as Hc
    by (vm_compute; discriminate).
  exists q, w'. split; [reflexivity|]. split; [exact Hc|].
  split; [reflexivity|]. split.
  - vm_compute in Hrun. injection Hrun as <-. vm_compute. reflexivity.
  - destruct (Handler_hints_cost_at_most_150 5 worldAsked w' q channel0
                (str "ann") Hq Hc Hrun) as (k & Hk & Hs & _).
    exists k. split; [exact Hk|exact Hs].
Defined.

Lemma HasPrefix_app prefix s : HasPrefix (prefix ++ s) prefix = true.
Proof.
  unfold HasPrefix. apply bool_decide_eq_true. by rewrite take_app_length.
Qed.

Lemma HasPrefix_differs s prefix i x y :
  s !! i = Some x -> prefix !! i = Some y -> x <> y ->
  HasPrefix s prefix = false.
Proof.
  intros Hs Hp Hne. unfold HasPrefix. apply bool_decide_eq_false. intros E.
  assert (take (length prefix) s !! i = Some y) as Ht by (by rewrite E).
  rewrite lookup_take_Some in Ht. destruct Ht as [Ht _]. congruence.
Qed.

(** X18. The command word of [!answer] is matched in any case but cut off
    only in lower case.  [!answer x] has the attempt [x] judged.  [!ANSWER x]
    is taken as the same command, but the whole message is judged as the
    attempt: it counts as correct exactly when the stored answer normalizes
    to ["answer"] followed by the normalized [x], so not when [x] itself is
    the answer. *)
Theorem Handler_upper_case_answer
    (w : World) (q : Question) (target user attempt : list Z) :
  CurrentQuestion (triviaGame w) = Some q ->
  Handler target user (str "!answer " ++ attempt) w
  = handleAnswer user target attempt w /\
  Handler target user (str "!ANSWER " ++ attempt) w
  = handleAnswer user target (str "!ANSWER " ++ attempt) w /\
  (CheckAnswer (triviaGame w) (str "!ANSWER " ++ attempt) = true <->
   normalizeAnswer (Answer q) = str "answer" ++ normalizeAnswer attempt).
Proof.
  intros Hq.
  assert (forall cmd,
            strings.ToLower cmd = str "!answer " ->
            Handler target user (cmd ++ attempt) w
            = handleAnswer user target
                (TrimPrefix (cmd ++ attempt) (str "!answer ")) w) as Hcmd.
  { intros cmd Hlow.
    assert (length cmd = 8%nat) as Hlen.
    { rewrite <- (length_fmap unicode.ToLower cmd).
      unfold strings.ToLower in Hlow. by rewrite Hlow. }
    assert (exists c1 rest, cmd = 33 :: c1 :: rest /\ unicode.ToLower c1 = 97)
      as (c1 & rest & -> & Hc1).
    { destruct cmd as [|c0 [|c1 rest]]; [done..|].
      unfold strings.ToLower in Hlow. cbn in Hlow.
      injection Hlow as H0 H1 _. exists c1, rest. split; [|done].
      f_equal. revert H0. unfold unicode.ToLower, between.
      repeat match goal with
             | |- context [if ?b then _ else _] => destruct b eqn:?
             end; bool_to_Z; lia. }
    unfold Handler.
    assert (strings.ToLower ((33 :: c1 :: rest) ++ attempt)
            = str "!answer " ++ strings.ToLower attempt) as ->.
    { unfold strings.ToLower in *. by rewrite fmap_app, Hlow. }
    replace (HasPrefix ((33 :: c1 :: rest) ++ attempt) (str "!")) with true
      by reflexivity.
    rewrite (HasPrefix_differs _ (str "!hello") 1 97 104) by done.
    rewrite (HasPrefix_differs _ (str "!start") 1 97 115) by done.
    rewrite (HasPrefix_differs _ (str "!stop") 1 97 115) by done.
    rewrite (HasPrefix_differs _ (str "!question") 1 97 113) by done.
    rewrite HasPrefix_app. unfold GetCurrentQuestion. by rewrite Hq. }
  split; [|split].
  - rewrite (Hcmd (str "!answer ")) by reflexivity.
    unfold TrimPrefix. rewrite HasPrefix_app. by rewrite drop_app_length.
  - rewrite (Hcmd (str "!ANSWER ")) by reflexivity.
    unfold TrimPrefix.
    by rewrite (HasPrefix_differs _ (str "!answer ") 1 65 97).
  - rewrite (CheckAnswer_active _ q _ Hq), normalizeAnswer_app.
    replace (normalizeAnswer (str "!ANSWER ")) with (str "answer")
      by reflexivity.
    split; congruence.
Qed.

Lemma Handler_upper_case_answer_witness :
  exists q,
    CurrentQuestion (triviaGame worldAsked) = Some q /\
    Answer q = str "A2" /\
    CheckAnswer (triviaGame worldAsked) (str "A2") = true /\
    Handler channel0 (str "ann") (str "!ANSWER " ++ str "A2") worldAsked
    = handleAnswer (str "ann") channel0 (str "!ANSWER " ++ str "A2") worldAsked /\
    CheckAnswer (triviaGame worldAsked) (str "!ANSWER " ++ str "A2") = false.
Proof.
  destruct (CurrentQuestion (triviaGame worldAsked)) as [q|] eqn:Hq;
    [|(vm_compute in Hq; discriminate)].
  exists q. split; [reflexivity|].
  assert (Answer q = str "A2") as Ha.
  { vm_compute in Hq. injection Hq as <-. reflexivity. }
  split; [exact Ha|]. split; [vm_compute; reflexivity|].
  destruct (Handler_upper_case_answer worldAsked q channel0 (str "ann")
              (str "A2") Hq) as (_ & H2 & H3).
  split; [exact H2|].
  apply Bool.not_true_iff_false. intros Ht. apply H3 in Ht.
  rewrite Ha in Ht. vm_compute in Ht. discriminate Ht.
Defined.

(** ** The loop, whatever it receives *)

Lemma gameLoop_select_total ev l : exists s, gameLoop_select ev l = Ok s.
Proof.
  destruct ev as [|answered|]; cbn [gameLoop_select].
  - destruct (nextQuestionTimer l); [|by eauto]. cbn [game client].
    destruct (GetPlaying (game l)); [|by eauto].
    destruct (askQuestion_total (client l) (game l)) as (c & g & ->).
    cbn [bind]. by eauto.
  - destruct (GetPlaying (game l)); [destruct answered|]; by eauto.
  - by eauto.
Qed.

(** X19. [gameLoop] never panics, whatever events it receives and in
    whatever state.  Entered, it asks nothing and sends nothing until the
    first round-ended event arrives, since its timer starts disarmed; and on
    the stop signal it returns at once with the timer disarmed, the game and
    the client as they were, whatever else is waiting. *)
Theorem gameLoop_never_panics :
  (forall evs l, exists s, gameLoop evs l = Ok s) /\
  (forall c g n,
      gameLoop (replicate n TimerC) (gameLoop_enter c g)
      = Ok (Continue (gameLoop_enter c g))) /\
  (forall evs l,
      gameLoop (StopRecv :: evs) l
      = Ok (Return {| client := client l; game := game l;
                      nextQuestionTimer := None |})).
Proof.
  split; [|split].
  - intros evs. induction evs as [|ev evs IH]; intros l; cbn [gameLoop].
    + by eauto.
    + destruct (gameLoop_select_total ev l) as ([l'|l'] & ->); cbn [bind].
      * apply IH.
      * by eauto.
  - intros c g n. induction n as [|n IH]; [done|].
    cbn [replicate gameLoop]. exact IH.
  - done.
Qed.

(** ** Lines from the server *)

Lemma dropWhile_app_stop (p : Z -> bool) l c r :
  p c = false ->
  strings.dropWhile p (l ++ c :: r) = strings.dropWhile p l ++ c :: r.
Proof.
  intros Hc. induction l as [|x l IH]; cbn [strings.dropWhile app].
  - by rewrite Hc.
  - by destruct (p x).
Qed.

Lemma dropWhile_all (p : Z -> bool) l :
  forallb p l = true -> strings.dropWhile p l = [].
Proof.
  induction l as [|x l IH]; [done|]. cbn.
  intros [-> H]%Bool.andb_true_iff. by apply IH.
Qed.

Lemma dropWhile_idemp (p : Z -> bool) l :
  strings.dropWhile p (strings.dropWhile p l) = strings.dropWhile p l.
Proof.
  induction l as [|x l IH]; [done|]. cbn [strings.dropWhile].
  destruct (p x) eqn:E; [done|]. cbn [strings.dropWhile]. by rewrite E.
Qed.

Lemma TrimRightFunc_stop p a c b :
  p c = false ->
  strings.TrimRightFunc (a ++ c :: b) p = a ++ c :: strings.TrimRightFunc b p.
Proof.
  intros Hc. unfold strings.TrimRightFunc.
  rewrite reverse_app, reverse_cons, <- app_assoc. cbn [app].
  rewrite dropWhile_app_stop by done.
  by rewrite reverse_app, reverse_cons, reverse_involutive, <- app_assoc.
Qed.

Lemma TrimRightFunc_app_all p t ws :
  forallb p ws = true ->
  strings.TrimRightFunc (t ++ ws) p = strings.TrimRightFunc t p.
Proof.
  intros Hws. unfold strings.TrimRightFunc. rewrite reverse_app. f_equal.
  assert (forallb p (reverse ws) = true) as Hr.
  { clear -Hws. induction ws as [|x ws IH]; [done|]. cbn in Hws.
    apply Bool.andb_true_iff in Hws as [Hx Hws].
    rewrite reverse_cons, forallb_app, (IH Hws). cbn. by rewrite Hx. }
  revert Hr. generalize (reverse ws) as l. induction l as [|x l IH]; [done|].
  cbn. intros [-> H]%Bool.andb_true_iff. by apply IH.
Qed.

Lemma TrimRightFunc_cons p c t :
  strings.TrimRightFunc (c :: t) p
  = if forallb p t && p c then [] else c :: strings.TrimRightFunc t p.
Proof.
  destruct (p c) eqn:Hc.
  - destruct (forallb p t) eqn:Ht; cbn [andb].
    + unfold strings.TrimRightFunc. rewrite reverse_cons.
      rewrite dropWhile_all; [done|].
      rewrite forallb_app. cbn. rewrite Hc, Bool.andb_true_r.
      clear -Ht. rewrite <- Ht. clear Ht.
      induction t as [|x t IH]; [done|].
      rewrite reverse_cons, forallb_app, IH. cbn.
      by rewrite Bool.andb_true_r, Bool.andb_comm.
    + assert (exists t1 x t2, t = t1 ++ x :: t2 /\ p x = false)
        as (t1 & x & t2 & -> & Hx).
      { clear -Ht. induction t as [|y t IH]; [done|]. cbn in Ht.
        destruct (p y) eqn:Hy.
        - destruct (IH Ht) as (t1 & x & t2 & -> & Hx).
          by exists (y :: t1), x, t2.
        - by exists [], y, t. }
      rewrite (TrimRightFunc_stop p t1 x t2 Hx).
      change (c :: t1 ++ x :: t2) with ((c :: t1) ++ x :: t2).
      by rewrite (TrimRightFunc_stop p (c :: t1) x t2 Hx).
  - rewrite Bool.andb_false_r. apply (TrimRightFunc_stop p [] c t Hc).
Qed.

Lemma Trim_commute p t :
  strings.TrimLeftFunc (strings.TrimRightFunc t p) p
  = strings.TrimRightFunc (strings.TrimLeftFunc t p) p.
Proof.
  unfold strings.TrimLeftFunc.
  induction t as [|c t IH]; [done|].
  rewrite TrimRightFunc_cons. cbn [strings.dropWhile].
  destruct (p c) eqn:Hc.
  - rewrite Bool.andb_true_r. destruct (forallb p t) eqn:Ht.
    + by rewrite (dropWhile_all p t Ht).
    + cbn [strings.dropWhile]. by rewrite Hc.
  - rewrite Bool.andb_false_r. cbn [strings.dropWhile]. rewrite Hc.
    by rewrite TrimRightFunc_cons, Hc, Bool.andb_false_r.
Qed.

Lemma TrimRightFunc_idemp p t :
  strings.TrimRightFunc (strings.TrimRightFunc t p) p = strings.TrimRightFunc t p.
Proof.
  unfold strings.TrimRightFunc. by rewrite reverse_involutive, dropWhile_idemp.
Qed.

Lemma TrimSpace_TrimRight t :
  strings.TrimSpace (strings.TrimRightFunc t unicode.IsSpace) = strings.TrimSpace t.
Proof.
  unfold strings.TrimSpace. by rewrite Trim_commute, TrimRightFunc_idemp.
Qed.

Lemma TrimSpace_noSpace s : noSpace s -> strings.TrimSpace s = s.
Proof.
  unfold strings.TrimSpace, strings.TrimLeftFunc. intros Hs.
  assert (forall l, noSpace l ->
            strings.dropWhile unicode.IsSpace l = l) as Hd.
  { intros [|x l] Hl; [done|]. cbn. apply Forall_cons in Hl as [-> _]. done. }
  rewrite (Hd s Hs). unfold strings.TrimRightFunc.
  rewrite Hd; [apply reverse_involutive|].
  unfold noSpace. by rewrite reverse_Permutation.
Qed.

Lemma splitFirst_found c sep' a b :
  c ∉ a ->
  splitFirst (c :: sep') (a ++ c :: sep' ++ b) = Some (a, b).
Proof.
  intros Hc. induction a as [|x a IH].
  - cbn [app splitFirst].
    change (c :: sep' ++ b) with ((c :: sep') ++ b).
    by rewrite HasPrefix_app, drop_app_length.
  - apply not_elem_of_cons in Hc as [Hne Hc].
    cbn [app splitFirst].
    rewrite (HasPrefix_differs _ (c :: sep') 0 x c) by done.
    by rewrite (IH Hc).
Qed.

Lemma splitFirst_found_sep sep c sep' a b :
  sep = c :: sep' -> c ∉ a ->
  splitFirst sep (a ++ sep ++ b) = Some (a, b).
Proof. intros -> Hc. by apply splitFirst_found. Qed.

Lemma noSpace_not_elem s : noSpace s -> 32 ∉ s.
Proof.
  intros Hs Hin. unfold noSpace in Hs. rewrite Forall_forall in Hs.
  by specialize (Hs 32 Hin).
Qed.

(** The loop body on a relayed [PRIVMSG] line. *)
Lemma Listen_line_privmsg (nick host target text : list Z) :
  noSpace nick -> noSpace host -> noSpace target -> 33 ∉ nick ->
  Listen_line (str ":" ++ nick ++ str "!" ++ host ++ str " "
               ++ privmsgLine target text)
  = CallHandler target nick (strings.TrimSpace text).
Proof.
  intros Hn Hh Ht Hbang. unfold Listen_line, privmsgLine.
  set (sender := str ":" ++ nick ++ str "!" ++ host).
  assert (noSpace sender) as Hsender.
  { unfold sender, noSpace. rewrite !Forall_app.
    split; [by repeat constructor|]. split; [done|].
    split; [by repeat constructor|done]. }
  assert (strings.TrimSpace
            (str ":" ++ nick ++ str "!" ++ host ++ str " "
             ++ str "PRIVMSG " ++ target ++ str " :" ++ text ++ [13; 10])
          = sender ++ str " PRIVMSG " ++ target ++ str " :"
            ++ strings.TrimRightFunc text unicode.IsSpace) as ->.
  { unfold strings.TrimSpace, strings.TrimLeftFunc.
    change (strings.dropWhile unicode.IsSpace (str ":" ++ ?x)) with (str ":" ++ x).
    replace (str ":" ++ nick ++ str "!" ++ host ++ str " "
             ++ str "PRIVMSG " ++ target ++ str " :" ++ text ++ [13; 10])
      with ((sender ++ str " PRIVMSG " ++ target ++ str " ")
            ++ 58 :: (text ++ [13; 10])).
    2:{ unfold sender. rewrite <- !app_assoc. done. }
    rewrite TrimRightFunc_stop by done.
    rewrite (TrimRightFunc_app_all _ text [13; 10]) by done.
    by rewrite <- !app_assoc. }
  rewrite (HasPrefix_differs _ (str "PING :") 0 58 80) by done.
  rewrite (splitFirst_found_sep (str " PRIVMSG ") 32 (str "PRIVMSG ") sender)
    by (done || by apply noSpace_not_elem).
  replace (HasPrefix sender (str ":")) with true by reflexivity.
  change (drop 1 sender) with (nick ++ str "!" ++ host).
  rewrite (splitFirst_found_sep (str "!") 33 [] nick host) by done.
  rewrite (splitFirst_found_sep (str " :") 32 [58] target)
    by (done || by apply noSpace_not_elem).
  by rewrite TrimSpace_TrimRight, TrimSpace_noSpace.
Qed.

(** The loop body on a [PING] line. *)
Lemma Listen_line_ping (token : list Z) :
  Listen_line (str "PING :" ++ token ++ [13; 10])
  = SendPong (strings.TrimRightFunc token unicode.IsSpace).
Proof.
  unfold Listen_line.
  assert (strings.TrimSpace (str "PING :" ++ token ++ [13; 10])
          = str "PING :" ++ strings.TrimRightFunc token unicode.IsSpace) as ->.
  { unfold strings.TrimSpace, strings.TrimLeftFunc.
    change (strings.dropWhile unicode.IsSpace (str "PING :" ++ ?x))
      with (str "PING :" ++ x).
    change (str "PING :" ++ token ++ [13; 10])
      with (str "PING" ++ 32 :: 58 :: (token ++ [13; 10])).
    change (str "PING" ++ 32 :: 58 :: (token ++ [13; 10]))
      with ((str "PING" ++ [32]) ++ 58 :: (token ++ [13; 10])).
    rewrite TrimRightFunc_stop by done.
    by rewrite (TrimRightFunc_app_all _ token [13; 10]). }
  rewrite HasPrefix_app. unfold TrimPrefix.
  by rewrite HasPrefix_app, drop_app_length.
Qed.

Lemma Listen_read_line (s : list Z) : forall line rest,
  (10 ∉ s) ->
  Listen_read line (s ++ 10 :: rest)
  = Listen_line (line ++ s ++ [10]) :: Listen rest.
Proof.
  induction s as [|c s IH]; intros line rest Hs; cbn [app Listen_read].
  - done.
  - apply not_elem_of_cons in Hs as [Hc Hs].
    destruct (Z.eqb_spec c 10) as [->|_]; [done|].
    rewrite IH by done. by rewrite <- app_assoc.
Qed.

Lemma noSpace_no_rune (r : Z) (s : list Z) :
  unicode.IsSpace r = true -> noSpace s -> r ∉ s.
Proof.
  intros Hr Hs Hin. unfold noSpace in Hs. rewrite Forall_forall in Hs.
  specialize (Hs r Hin). congruence.
Qed.

(** X20. A [PRIVMSG] a client sends comes back whole on the receiving
    side.  The line [Privmsg(target, text)] writes, relayed by the server
    behind the sender's prefix [:nick!host], makes [Listen] call the handler
    with that target, that nick and the text trimmed of surrounding white
    space, and go on with what follows the line - provided nick, host and
    target hold no white space, the nick no exclamation mark and the text no
    line feed. *)
Theorem Listen_privmsg (nick host target text rest : list Z) :
  noSpace nick -> noSpace host -> noSpace target -> (33 ∉ nick) -> (10 ∉ text) ->
  Listen (str ":" ++ nick ++ str "!" ++ host ++ str " "
          ++ privmsgLine target text ++ rest)
  = CallHandler target nick (strings.TrimSpace text) :: Listen rest.
Proof.
  intros Hn Hh Ht Hbang Htext. unfold Listen at 1.
  pose proof (Listen_line_privmsg nick host target text Hn Hh Ht Hbang) as Hline.
  unfold privmsgLine in *.
  replace (str ":" ++ nick ++ str "!" ++ host ++ str " "
           ++ (str "PRIVMSG " ++ target ++ str " :" ++ text ++ [13; 10]) ++ rest)
    with ((str ":" ++ nick ++ str "!" ++ host ++ str " "
           ++ str "PRIVMSG " ++ target ++ str " :" ++ text ++ [13])
          ++ 10 :: rest).
  2:{ by repeat first [rewrite <- app_assoc | progress cbn]. }
  rewrite Listen_read_line.
  - rewrite <- Hline. cbn [app]. f_equal. f_equal.
    by repeat first [rewrite <- app_assoc | progress cbn].
  - assert (forall s, noSpace s -> 10 ∉ s) as Hno
      by (intros s0; by apply noSpace_no_rune).
    rewrite !not_elem_of_app. repeat split;
      try (by apply Hno); try done;
      by (apply (bool_decide_unpack _); vm_compute).
Qed.

Lemma Listen_privmsg_witness :
  noSpace (str "ann") /\ noSpace (str "u@host") /\ noSpace (str "#trivia") /\
  (33 ∉ str "ann") /\ (10 ∉ str " !hint now ") /\
  Listen (str ":ann!u@host PRIVMSG #trivia : !hint now " ++ [13; 10]
          ++ str "PING :irc.example.org" ++ [13; 10])
  = [CallHandler (str "#trivia") (str "ann") (str "!hint now");
     SendPong (str "irc.example.org")].
Proof.
  assert (noSpace (str "ann")) as Hn by (by repeat constructor).
  assert (noSpace (str "u@host")) as Hh by (by repeat constructor).
  assert (noSpace (str "#trivia")) as Ht by (by repeat constructor).
  assert (33 ∉ str "ann") as Hb.
  { apply (bool_decide_unpack _). vm_compute. exact I. }
  assert (10 ∉ str " !hint now ") as Hl.
  { apply (bool_decide_unpack _). vm_compute. exact I. }
  split; [exact Hn|]. split; [exact Hh|]. split; [exact Ht|]. split; [exact Hb|].
  split; [exact Hl|].
  exact (Listen_privmsg (str "ann") (str "u@host") (str "#trivia")
           (str " !hint now ") (str "PING :irc.example.org" ++ [13; 10])
           Hn Hh Ht Hb Hl).
Defined.

(** X21. A [PING] is answered with its own token: for the line
    [PING :token] (the token holding no line feed) [Listen] sends
    [PONG :token], the token cut only of the white space at its end (the line
    end included), does not call the handler, and goes on with what follows
    the line. *)
Theorem Listen_ping (token rest : list Z) :
  (10 ∉ token) ->
  Listen (str "PING :" ++ token ++ [13; 10] ++ rest)
  = SendPong (strings.TrimRightFunc token unicode.IsSpace) :: Listen rest.
Proof.
  intros Ht. unfold Listen at 1.
  replace (str "PING :" ++ token ++ [13; 10] ++ rest)
    with ((str "PING :" ++ token ++ [13]) ++ 10 :: rest)
    by (by repeat first [rewrite <- app_assoc | progress cbn]).
  rewrite Listen_read_line.
  - rewrite <- Listen_line_ping. cbn [app]. f_equal. f_equal.
    by repeat first [rewrite <- app_assoc | progress cbn].
  - rewrite !not_elem_of_app. repeat split; try done;
      by (apply (bool_decide_unpack _); vm_compute).
Qed.

Lemma Listen_ping_witness :
  (10 ∉ str "irc.example.org") /\
  Listen (str "PING :irc.example.org" ++ [13; 10])
  = [SendPong (str "irc.example.org")].
Proof.
  assert (10 ∉ str "irc.example.org") as Ht.
  { apply (bool_decide_unpack _). vm_compute. exact I. }
  split; [exact Ht|].
  exact (Listen_ping (str "irc.example.org") [] Ht).
Defined.

(** ** Skipping through the handler *)




(** ** Rounds and loops that outlive their end *)

(** C8 after a replaced round.  [ClearCurrentQuestion] stops the one timer
    [QuestionTimer] points to.  A timeout that is pending but no longer held
    there, as the one of a round that [askQuestion] replaced, is not
    cancelled: it is pending after the clearing as before. *)
Theorem ClearCurrentQuestion_leaves_stale_timer (g : Game) (t : nat) (tm : Timer) :
  QuestionTimer g <> Some t ->
  timers g !! t = Some tm ->
  tstate tm = Pending ->
  exists tm',
    timers (ClearCurrentQuestion g) !! t = Some tm' /\ tstate tm' = Pending.
Proof.
  intros Hne Ht Hp. exists tm. split; [|done].
  unfold ClearCurrentQuestion.
  cbn [QuestionTimer with_nextVotes with_hintMask with_hintCount
       with_CurrentQuestion timers].
  destruct (QuestionTimer g) as [t0|]; cbn [timers with_timers]; [|done].
  rewrite list_lookup_alter_ne by congruence. done.
Qed.

Lemma ClearCurrentQuestion_leaves_stale_timer_witness :
  handleAll [(channel0, str "ann", str "!question");
             (channel0, str "ann", str "!question")] world0
  = Ok worldAskedTwice /\
  QuestionTimer (triviaGame worldAskedTwice) = Some 1%nat /\
  tstate <$> timers (triviaGame worldAskedTwice) = [Pending; Pending] /\
  tstate <$> timers (ClearCurrentQuestion (triviaGame worldAskedTwice))
  = [Pending; Stopped] /\
  exists tm',
    timers (ClearCurrentQuestion (triviaGame worldAskedTwice)) !! 0%nat = Some tm' /\
    tstate tm' = Pending.
Proof.
  split; [vm_compute; reflexivity|]. split; [vm_compute; reflexivity|].
  split; [vm_compute; reflexivity|]. split; [vm_compute; reflexivity|].
  apply (ClearCurrentQuestion_leaves_stale_timer (triviaGame worldAskedTwice) 0
           {| delay := 30 * Second; tstate := Pending |}).
  - vm_compute. discriminate.
  - vm_compute. reflexivity.
  - reflexivity.
Defined.

(** C6 with a question active.  When the loop's timer fires in continuous
    play and [StartRound] returns none, [askQuestion] sends its notice and
    switches continuous play off, and that is all: a question that is active
    stays active with its timeout, so the engine is not idle, and the loop
    goes on with its timer armed again for 45 seconds. *)
Theorem gameLoop_exhaustion_not_idle (l : Loop) (d : Z) (q : Question) (g1 : Game) :
  nextQuestionTimer l = Some d ->
  GetPlaying (game l) = true ->
  GetCurrentQuestion (game l) = Some q ->
  StartRound (game l) = Ok (None, g1) ->
  exists l',
    gameLoop_select TimerC l = Ok (Continue l') /\
    GetPlaying (game l') = false /\
    GetCurrentQuestion (game l') = Some q /\
    QuestionTimer (game l') = QuestionTimer (game l) /\
    timers (game l') = timers (game l) /\
    nextQuestionTimer l' = Some (45 * Second) /\
    outbox (client l')
    = outbox (client l) ++ [(GameChannel (game l), msgNoMoreQuestions)].
Proof.
  intros Ht Hp Hq Hs. cbn [gameLoop_select]. rewrite Ht. cbn [game client].
  rewrite Hp, (askQuestion_none _ _ g1 Hs). cbn [bind].
  eexists. split; [reflexivity|]. cbn.
  apply StartRound_frame in Hs as (Hq' & _ & _ & _ & _ & _ & Hch & Hqt & Htm).
  unfold GetCurrentQuestion in *. by rewrite Hq', Hq, Hch, Hqt, Htm.
Qed.

Lemma gameLoop_exhaustion_not_idle_witness :
  answerGiven worldFlakyAnswered = [true] /\
  (GetPlaying (game loopFlakyExhausted) = false /\
   GetCurrentQuestion (game loopFlakyExhausted) = None /\
   nextQuestionTimer loopFlakyExhausted = Some (45 * Second)) /\
  gameLoops worldFlakyRestarted = 2%nat /\
  nextQuestionTimer loopFlakyLeaked = Some (45 * Second) /\
  GetPlaying (game loopFlakyLeaked) = true /\
  GetCurrentQuestion (game loopFlakyLeaked) = Some qB /\
  exists l',
    gameLoop_select TimerC loopFlakyLeaked = Ok (Continue l') /\
    GetPlaying (game l') = false /\
    GetCurrentQuestion (game l') = Some qB /\
    nextQuestionTimer l' = Some (45 * Second).
Proof.
  split; [vm_compute; reflexivity|].
  split; [repeat split; vm_compute; reflexivity|].
  split; [vm_compute; reflexivity|].
  assert (nextQuestionTimer loopFlakyLeaked = Some (45 * Second)) as Ht
    by (vm_compute; reflexivity).
  assert (GetPlaying (game loopFlakyLeaked) = true) as Hp
    by (vm_compute; reflexivity).
  assert (GetCurrentQuestion (game loopFlakyLeaked) = Some qB) as Hq
    by (vm_compute; reflexivity).
  assert (StartRound (game loopFlakyLeaked)
          = Ok (None, refilled (game loopFlakyLeaked))) as Hs
    by (vm_compute; reflexivity).
  split; [exact Ht|]. split; [exact Hp|]. split; [exact Hq|].
  destruct (gameLoop_exhaustion_not_idle loopFlakyLeaked (45 * Second) qB
              (refilled (game loopFlakyLeaked)) Ht Hp Hq Hs)
    as (l' & H1 & H2 & H3 & _ & _ & H4 & _).
  exists l'. split; [exact H1|]. split; [exact H2|]. split; [exact H3|exact H4].
Defined.
